(** * LED stack game (Stack_game.ino): shallow embedding and verification

    The sketch keeps its whole game in global variables and mutates them
    from [loop()].  Here the globals, together with the lit points of the
    LED matrix, are one record [State]; every function of the sketch is a
    function from [State] to [option State], where [None] stands for an
    access to the array [stack] with an index outside [HEIGHT] x [WIDTH]
    (undefined behaviour in C++).  What the sketch reads from its
    environment in one pass of [loop()] (serial byte, button level, clock,
    raw output of the pseudo random generator) is the record [Input].

    - [int] globals are integers of [Z]; [reachable_int_range] shows that
      they stay far inside the range of a 16-bit [int], so no arithmetic of
      the sketch overflows.  The [unsigned long] clock arithmetic wraps at
      2^32 ([to_ulong]).
    - [for] loops are folds over the indices they visit ([for_range],
      [foldM]), with the loop body as the folded function.
    - Text written to the serial line is left out, but the array reads
      made to print it are kept ([print_row]); [delay] calls and the
      busy wait for the release of the button change no global and are
      left out. *)

From Stdlib Require Import ZArith Lia Ascii.
From stdpp Require Import prelude.

Open Scope Z_scope.

(** ** Constants of the sketch *)

Definition WIDTH : Z := 8.
Definition HEIGHT : Z := 32.
Definition BLOCK_WIDTH : Z := 4.
Definition ROTATE_DISPLAY : bool := true.
Definition INITIAL_DELAY : Z := 200.
Definition MIN_DELAY : Z := 50.
Definition DELAY_STEP : Z := 10.

(** ** The occupancy array [int stack[HEIGHT][WIDTH]] *)

Abbreviation Grid := (list (list Z)).

Definition in_grid (row col : Z) : bool :=
  (0 <=? row) && (row <? HEIGHT) && (0 <=? col) && (col <? WIDTH).

(** [stack[row][col]] as an rvalue. *)
Definition grid_get (g : Grid) (row col : Z) : option Z :=
  if in_grid row col then
    r ← g !! Z.to_nat row; r !! Z.to_nat col
  else None.

(** [stack[row][col] = v]. *)
Definition grid_set (g : Grid) (row col v : Z) : option Grid :=
  if in_grid row col then
    r ← g !! Z.to_nat row;
    _ ← r !! Z.to_nat col;
    Some (<[Z.to_nat row := <[Z.to_nat col := v]> r]> g)
  else None.

(** The shape the declaration gives the array. *)
Definition grid_wf (g : Grid) : Prop :=
  length g = Z.to_nat HEIGHT ∧ Forall (λ r, length r = Z.to_nat WIDTH) g.

(** A cell is occupied when it holds 1; a coordinate outside the array is
    not occupied. *)
Definition occupied (g : Grid) (row col : Z) : Prop :=
  grid_get g row col = Some 1.

Definition empty_grid : Grid :=
  replicate (Z.to_nat HEIGHT) (replicate (Z.to_nat WIDTH) 0).

(** ** Loops *)

(** [for (int i = lo; i < hi; i++)] visits [for_range lo hi]. *)
Definition for_range (lo hi : Z) : list Z := seqZ lo (hi - lo).

(** A loop body that may fault, run over the visited indices. *)
Fixpoint foldM {A B : Type} (f : A → B → option A) (a : A) (l : list B)
  : option A :=
  match l with
  | [] => Some a
  | x :: l' => a' ← f a x; foldM f a' l'
  end.

(** ** Program state: the globals of the sketch and the LED matrix *)

Record State : Type := mkState {
  blockPos : Z;
  blockRow : Z;
  blockMoving : bool;
  stack : Grid;
  stackHeight : Z;
  gameOver : bool;
  lastMove : Z;
  moveDelay : Z;
  moveRight : bool;
  testMode : bool;
  testRow : Z;
  matrix : list (Z * Z)
}.

Definition set_blockPos (v : Z) (s : State) : State :=
  mkState v (blockRow s) (blockMoving s) (stack s) (stackHeight s)
    (gameOver s) (lastMove s) (moveDelay s) (moveRight s) (testMode s)
    (testRow s) (matrix s).
Definition set_blockRow (v : Z) (s : State) : State :=
  mkState (blockPos s) v (blockMoving s) (stack s) (stackHeight s)
    (gameOver s) (lastMove s) (moveDelay s) (moveRight s) (testMode s)
    (testRow s) (matrix s).
Definition set_blockMoving (v : bool) (s : State) : State :=
  mkState (blockPos s) (blockRow s) v (stack s) (stackHeight s)
    (gameOver s) (lastMove s) (moveDelay s) (moveRight s) (testMode s)
    (testRow s) (matrix s).
Definition set_stack (v : Grid) (s : State) : State :=
  mkState (blockPos s) (blockRow s) (blockMoving s) v (stackHeight s)
    (gameOver s) (lastMove s) (moveDelay s) (moveRight s) (testMode s)
    (testRow s) (matrix s).
Definition set_stackHeight (v : Z) (s : State) : State :=
  mkState (blockPos s) (blockRow s) (blockMoving s) (stack s) v
    (gameOver s) (lastMove s) (moveDelay s) (moveRight s) (testMode s)
    (testRow s) (matrix s).
Definition set_gameOver (v : bool) (s : State) : State :=
  mkState (blockPos s) (blockRow s) (blockMoving s) (stack s) (stackHeight s)
    v (lastMove s) (moveDelay s) (moveRight s) (testMode s)
    (testRow s) (matrix s).
Definition set_lastMove (v : Z) (s : State) : State :=
  mkState (blockPos s) (blockRow s) (blockMoving s) (stack s) (stackHeight s)
    (gameOver s) v (moveDelay s) (moveRight s) (testMode s)
    (testRow s) (matrix s).
Definition set_moveDelay (v : Z) (s : State) : State :=
  mkState (blockPos s) (blockRow s) (blockMoving s) (stack s) (stackHeight s)
    (gameOver s) (lastMove s) v (moveRight s) (testMode s)
    (testRow s) (matrix s).
Definition set_moveRight (v : bool) (s : State) : State :=
  mkState (blockPos s) (blockRow s) (blockMoving s) (stack s) (stackHeight s)
    (gameOver s) (lastMove s) (moveDelay s) v (testMode s)
    (testRow s) (matrix s).
Definition set_testMode (v : bool) (s : State) : State :=
  mkState (blockPos s) (blockRow s) (blockMoving s) (stack s) (stackHeight s)
    (gameOver s) (lastMove s) (moveDelay s) (moveRight s) v
    (testRow s) (matrix s).
Definition set_testRow (v : Z) (s : State) : State :=
  mkState (blockPos s) (blockRow s) (blockMoving s) (stack s) (stackHeight s)
    (gameOver s) (lastMove s) (moveDelay s) (moveRight s) (testMode s)
    v (matrix s).
Definition set_matrix (v : list (Z * Z)) (s : State) : State :=
  mkState (blockPos s) (blockRow s) (blockMoving s) (stack s) (stackHeight s)
    (gameOver s) (lastMove s) (moveDelay s) (moveRight s) (testMode s)
    (testRow s) v.

(** The globals as their initialisers leave them, before [setup()]. *)
Definition boot : State :=
  mkState 0 0 true empty_grid 0 false 0 INITIAL_DELAY true false 0 [].

(** ** Environment *)

(** What one pass of [loop()] reads from outside the sketch. *)
Record Input : Type := mkInput {
  serialIn : option ascii;  (* Serial.available() and Serial.read() *)
  buttonLow : bool;         (* digitalRead(BUTTON_PIN) == LOW *)
  buttonStillLow : bool;    (* the same read after the 50 ms debounce *)
  clockTest : Z;            (* millis() in the motion condition *)
  clockStore : Z;           (* millis() stored into lastMove *)
  rndSerial : N;            (* raw generator output, reset on leaving test mode *)
  rndMain : N               (* raw generator output, restart or drop *)
}.

(** Arduino's [random(howsmall, howbig)] over the raw generator output
    [raw] (a non-negative long): [howsmall] when the range is empty,
    otherwise [raw % (howbig - howsmall) + howsmall]. *)
Definition random_range (raw : N) (howsmall howbig : Z) : Z :=
  if howsmall >=? howbig then howsmall
  else Z.rem (Z.of_N raw) (howbig - howsmall) + howsmall.

(** Conversion to [unsigned long] (32 bits), as in [millis() - lastMove]. *)
Definition to_ulong (z : Z) : Z := z mod 2 ^ 32.

(** The byte read from the serial line, if any, is [c]. *)
Definition serial_is (i : Input) (c : ascii) : bool :=
  match serialIn i with Some c' => Ascii.eqb c' c | None => false end.

(** A confirmed press: the pin reads LOW before and after the debounce. *)
Definition pressed (i : Input) : bool := buttonLow i && buttonStillLow i.

(** ** Rendering: [updateDisplay()] *)

(** The point lit for the logical cell (row, col). *)
Definition mapPoint (row col : Z) : Z * Z :=
  if ROTATE_DISPLAY then (col, row) else (row, col).

Definition draw_cell (g : Grid) (row : Z) (pts : list (Z * Z)) (col : Z)
  : option (list (Z * Z)) :=
  v ← grid_get g row col;
  Some (if v =? 0 then pts else pts ++ [mapPoint row col]).

Definition draw_stack (g : Grid) : option (list (Z * Z)) :=
  foldM (λ pts row, foldM (draw_cell g row) pts (for_range 0 WIDTH))
        [] (for_range 0 HEIGHT).

Definition draw_block_col (row : Z) (pts : list (Z * Z)) (col : Z)
  : list (Z * Z) :=
  if (0 <=? col) && (col <? WIDTH) then pts ++ [mapPoint row col] else pts.

Definition updateDisplay (s : State) : option State :=
  if testMode s then
    Some (set_matrix
            (foldl (λ pts col, pts ++ [mapPoint (testRow s) col]) []
                   (for_range 0 WIDTH)) s)
  else
    pts ← draw_stack (stack s);
    let pts :=
      if negb (gameOver s) && blockMoving s then
        foldl (draw_block_col (blockRow s)) pts
              (for_range (blockPos s) (blockPos s + BLOCK_WIDTH))
      else pts in
    Some (set_matrix pts s).

(** ** [resetGame()] *)

Definition clear_stack (g : Grid) : option Grid :=
  foldM (λ g row, foldM (λ g col, grid_set g row col 0) g (for_range 0 WIDTH))
        g (for_range 0 HEIGHT).

Definition resetGame (rnd : N) (s : State) : option State :=
  g ← clear_stack (stack s);
  let s := set_stack g s in
  let s := set_blockPos (random_range rnd 0 (WIDTH - BLOCK_WIDTH + 1)) s in
  let s := set_blockRow 0 s in
  let s := set_stackHeight 0 s in
  let s := set_gameOver false s in
  let s := set_blockMoving true s in
  let s := set_moveDelay INITIAL_DELAY s in
  let s := set_moveRight true s in
  let s := set_testMode false s in
  let s := set_testRow 0 s in
  updateDisplay s.

(** [setup()]: the display is cleared and the game reset. *)
Definition setup (rnd : N) : option State :=
  resetGame rnd (set_matrix [] boot).

(** ** [dropBlock()] *)

(** One pass of the loop over the columns of the block. *)
Definition drop_column (row : Z) (acc : Grid * bool) (col : Z)
  : option (Grid * bool) :=
  if (0 <=? col) && (col <? WIDTH) then
    lands ← (if row =? 0 then Some true
             else v ← grid_get acc.1 (row - 1) col; Some (v =? 1));
    if lands : bool then
      g' ← grid_set acc.1 row col 1; Some (g', true)
    else Some acc
  else Some acc.

(** The debug print of the row just filled reads it cell by cell. *)
Definition print_row (g : Grid) (row : Z) : option unit :=
  foldM (λ _ col, _ ← grid_get g row col; Some tt) tt (for_range 0 WIDTH).

Definition dropBlock (rnd : N) (s : State) : option State :=
  let s := set_blockMoving false s in
  acc ← (if (blockRow s =? 0) || (stackHeight s >? 0) then
           foldM (drop_column (blockRow s)) (stack s, false)
                 (for_range (blockPos s) (blockPos s + BLOCK_WIDTH))
         else Some (stack s, false));
  let s := set_stack acc.1 s in
  let placed := acc.2 in
  if negb placed && (blockRow s >? 0) then
    Some (set_gameOver true s)
  else
    let s := if blockRow s >=? stackHeight s
             then set_stackHeight (blockRow s + 1) s else s in
    if stackHeight s >=? HEIGHT then
      Some (set_gameOver true s)
    else
      let s := set_blockRow (blockRow s + 1) s in
      let s := set_blockPos (random_range rnd 0 (WIDTH - BLOCK_WIDTH + 1)) s in
      let s := set_blockMoving true s in
      let s := set_moveDelay (Z.max MIN_DELAY (moveDelay s - DELAY_STEP)) s in
      _ ← print_row (stack s) (blockRow s - 1);
      Some s.

(** ** [loop()] *)

(** Lines 173-190: a byte on the serial line toggles test mode or
    advances the test cursor. *)
Definition advanceTestRow (s : State) : State :=
  set_testRow (Z.rem (testRow s + 1) HEIGHT) s.

Definition serialPhase (i : Input) (s : State) : option State :=
  match serialIn i with
  | None => Some s
  | Some c =>
      s' ← (if Ascii.eqb c "t" then
              let s := set_testMode (negb (testMode s)) s in
              if testMode s then Some (set_testRow 0 s)
              else resetGame (rndSerial i) s
            else if testMode s && Ascii.eqb c "n" then
              Some (advanceTestRow s)
            else Some s);
      updateDisplay s'
  end.

(** Lines 192-205: in test mode the button advances the cursor. *)
Definition testPhase (i : Input) (s : State) : option State :=
  if pressed i then updateDisplay (advanceTestRow s) else Some s.

(** Lines 207-222: the display flashes and the button restarts. *)
Definition gameOverPhase (i : Input) (s : State) : option State :=
  s ← updateDisplay (set_matrix [] s);
  if pressed i then resetGame (rndMain i) s else Some s.

(** Lines 226-233: one step of the sweep. *)
Definition moveBlock (s : State) : State :=
  let s := set_blockPos (blockPos s + (if moveRight s then 1 else -1)) s in
  if blockPos s <=? 0 then
    set_moveRight true (set_blockPos 0 s)
  else if blockPos s >=? WIDTH - BLOCK_WIDTH then
    set_moveRight false (set_blockPos (WIDTH - BLOCK_WIDTH) s)
  else s.

(** Lines 225-236. *)
Definition motionPhase (i : Input) (s : State) : option State :=
  if blockMoving s
     && (to_ulong (clockTest i - lastMove s) >=? to_ulong (moveDelay s)) then
    updateDisplay (set_lastMove (to_ulong (clockStore i)) (moveBlock s))
  else Some s.

(** Lines 239-247. *)
Definition buttonPhase (i : Input) (s : State) : option State :=
  if pressed i then s ← dropBlock (rndMain i) s; updateDisplay s
  else Some s.

Definition loop (i : Input) (s : State) : option State :=
  s ← serialPhase i s;
  if testMode s then testPhase i s
  else if gameOver s then gameOverPhase i s
  else s ← motionPhase i s; buttonPhase i s.

(** The sketch from power-up: [setup()], then [loop()] once per input. *)
Definition run (ins : list Input) (s : State) : option State :=
  foldM (λ s i, loop i s) s ins.

Definition reachable (s : State) : Prop :=
  ∃ (rnd : N) (ins : list Input), setup rnd ≫= run ins = Some s.

(** ** Vocabulary of the statements *)

(** Column [col] of a block dropped at [row] comes to rest: it is a column
    of the array, and the block is on the floor or the cell below is
    occupied. *)
Definition lands (g : Grid) (row col : Z) : Prop :=
  0 ≤ col < WIDTH ∧ (row = 0 ∨ occupied g (row - 1) col).

Global Instance lands_dec g row col : Decision (lands g row col).
Proof. unfold lands, occupied. apply _. Defined.

(** Invariant of the column loop of [dropBlock], started on the array [g]
    at [row]: after the columns [pre], the cells of [row] that land in
    [pre] hold 1, every other cell is as in [g], and the flag records
    whether one landed. *)
Definition drop_inv (g : Grid) (row : Z) (pre : list Z) (acc : Grid * bool)
  : Prop :=
  grid_wf acc.1
  ∧ (∀ r c, grid_get acc.1 r c =
            if decide (r = row ∧ c ∈ pre ∧ lands g row c) then Some 1
            else grid_get g r c)
  ∧ (acc.2 = true ↔ ∃ c, c ∈ pre ∧ lands g row c).

(** The columns the block of [s] spans. *)
Definition in_span (s : State) (col : Z) : Prop :=
  blockPos s ≤ col < blockPos s + BLOCK_WIDTH.

(** Column [col] of the block of [s] is placed by a drop: the scan of the
    columns runs (the block is on the floor or the stack is not empty),
    the column is one of the block's, and it lands. *)
Definition placed_col (s : State) (col : Z) : Prop :=
  (blockRow s = 0 ∨ 0 < stackHeight s)
  ∧ in_span s col ∧ lands (stack s) (blockRow s) col.

Global Instance placed_col_dec s col : Decision (placed_col s col).
Proof. unfold placed_col, in_span. apply _. Defined.

(** The drop is not a miss: the block is on the floor or a column is
    placed. *)
Definition survives (s : State) : Prop :=
  blockRow s = 0 ∨ ∃ col, placed_col s col.

(** The stack height after a drop that is not a miss. *)
Definition raised_height (s : State) : Z :=
  if blockRow s >=? stackHeight s then blockRow s + 1 else stackHeight s.

(** The game is being played: not over and not in test mode. *)
Definition playing (s : State) : Prop :=
  gameOver s = false ∧ testMode s = false.

(** What holds of the globals between any two statements of [loop()]
    outside [dropBlock] and [resetGame]. *)
Record Inv (s : State) : Prop := mkInv {
  inv_wf : grid_wf (stack s);
  inv_cells : ∀ r c v, grid_get (stack s) r c = Some v → v = 0 ∨ v = 1;
  inv_pos : 0 ≤ blockPos s ≤ WIDTH - BLOCK_WIDTH;
  inv_row : 0 ≤ blockRow s < HEIGHT;
  inv_height : 0 ≤ stackHeight s ≤ HEIGHT;
  inv_active :
    gameOver s = false → blockMoving s = true ∧ blockRow s = stackHeight s;
  inv_delay : MIN_DELAY ≤ moveDelay s ≤ INITIAL_DELAY;
  inv_testRow : 0 ≤ testRow s < HEIGHT;
  inv_watermark :
    ∀ r, 0 ≤ r < HEIGHT → (∃ c, occupied (stack s) r c) ↔ r < stackHeight s
}.

(** What a reset leaves behind. *)
Definition fresh_game (s : State) : Prop :=
  (∀ r c, 0 ≤ r < HEIGHT → 0 ≤ c < WIDTH → grid_get (stack s) r c = Some 0)
  ∧ stackHeight s = 0
  ∧ moveDelay s = 200
  ∧ playing s
  ∧ blockMoving s = true
  ∧ blockRow s = 0
  ∧ 0 ≤ blockPos s ≤ WIDTH - BLOCK_WIDTH.

(** stackHeight is one more than the highest row holding an occupied
    cell, or 0 when no cell is occupied.  Cells are only ever set by a
    placement and cleared by a reset, so the rows holding an occupied cell
    are those that received a placement since the last reset. *)
Definition height_is_watermark (s : State) : Prop :=
  (stackHeight s = 0 ∧ ∀ r c, ¬ occupied (stack s) r c)
  ∨ (0 < stackHeight s
     ∧ (∃ c, occupied (stack s) (stackHeight s - 1) c)
     ∧ ∀ r c, occupied (stack s) r c → r < stackHeight s).

(** The array and its height are untouched. *)
Definition same_grid (s s' : State) : Prop :=
  stack s' = stack s ∧ stackHeight s' = stackHeight s.

(** The block is untouched. *)
Definition same_block (s s' : State) : Prop :=
  blockPos s' = blockPos s ∧ blockRow s' = blockRow s
  ∧ moveRight s' = moveRight s ∧ blockMoving s' = blockMoving s.

(** Nothing of the game but the block's position and direction, the
    test cursor, the clock stamp and the display has changed. *)
Definition same_game (s s' : State) : Prop :=
  same_grid s s' ∧ blockRow s' = blockRow s ∧ blockMoving s' = blockMoving s
  ∧ gameOver s' = gameOver s ∧ moveDelay s' = moveDelay s
  ∧ testMode s' = testMode s.

(** What can happen within one game, between two resets: a drop that
    leaves the game running, a step of the sweep, a redraw. *)
Inductive game_step : State → State → Prop :=
  | step_drop rnd s s' :
      gameOver s = false → dropBlock rnd s = Some s' → gameOver s' = false →
      game_step s s'
  | step_move t s : game_step s (set_lastMove t (moveBlock s))
  | step_draw s s' : updateDisplay s = Some s' → game_step s s'.

(** ** Sample runs *)

(** A pass of [loop()] with the button held through the debounce; the
    clock stands still, so the block does not move. *)
Definition press (rnd : N) : Input := mkInput None true true 0 0 0 rnd.

Definition state_after (rnd : N) (ins : list Input) : State :=
  default boot (setup rnd ≫= run ins).

(** After one drop at columns 2..5: the next block is at row 1, columns
    0..3, and overlaps the stack in columns 2 and 3. *)
Definition one_row_state : State :=
  Eval vm_compute in state_after 2 [press 0].

(** After 31 drops at columns 0..3: the block is on the last row. *)
Definition top_row_state : State :=
  Eval vm_compute in state_after 0 (replicate 31 (press 0)).

(** A missed drop has ended the game, then test mode was entered. *)
Definition over_in_test_state : State :=
  Eval vm_compute in
    state_after 0 [press 4; press 0; mkInput (Some "t"%char) false false 0 0 0 0].

(** After one drop at columns 0..3, with the next block at columns 4..7:
    nothing under the block. *)
Definition gap_state : State :=
  Eval vm_compute in state_after 0 [press 4].

(** After a drop at columns 2..5 and one at columns 0..3: row 0 holds
    columns 2..5, row 1 holds columns 2 and 3, the block is at row 2. *)
Definition two_row_state : State :=
  Eval vm_compute in state_after 2 [press 0; press 4].

(** Right after [setup()], with the block at columns 3..6 of row 0. *)
Definition fresh_state : State := Eval vm_compute in state_after 3 [].

(** ** Vocabulary of the further properties *)

(** The test [if (stack[row][col])] of [updateDisplay]: the cell is not 0. *)
Definition cell_on (g : Grid) (row col : Z) : Prop :=
  ∃ v, grid_get g row col = Some v ∧ v ≠ 0.

(** [updateDisplay] draws the block at the point (x, y). *)
Definition block_shown (s : State) (x y : Z) : Prop :=
  gameOver s = false ∧ blockMoving s = true
  ∧ y = blockRow s ∧ in_span s x ∧ 0 ≤ x < WIDTH.

(** The display shows the frame of the current globals. *)
Definition displayed (s : State) : Prop := updateDisplay s = Some s.

(** Every occupied cell above the floor rests on an occupied cell. *)
Definition tower_supported (g : Grid) : Prop :=
  ∀ r c, occupied g r c → r = 0 ∨ occupied g (r - 1) c.

(** The pass of [loop()] on input [i] from [s] does not call
    [resetGame]: it does not leave test mode, and it does not confirm a
    press while the game is over. *)
Definition no_reset (i : Input) (s : State) : Prop :=
  ¬ (testMode s = true ∧ serialIn i = Some "t"%char)
  ∧ ¬ (gameOver s = true ∧ pressed i = true).

(** From [s] to [s'] the game has not gone backwards: no occupied cell
    was cleared, the stack is not lower, the block is not on a lower row,
    the block does not sweep more slowly, and a game that was over still
    is. *)
Definition no_step_back (s s' : State) : Prop :=
  (∀ r c, occupied (stack s) r c → occupied (stack s') r c)
  ∧ stackHeight s ≤ stackHeight s'
  ∧ blockRow s ≤ blockRow s'
  ∧ moveDelay s' ≤ moveDelay s
  ∧ (gameOver s = true → gameOver s' = true).

(** * Verification *)

(** ** Deciding survival *)

Lemma survives_scan s :
  survives s ↔
  blockRow s = 0
  ∨ Exists (placed_col s) (for_range (blockPos s) (blockPos s + BLOCK_WIDTH)).
Proof.
  unfold survives. rewrite Exists_exists. unfold for_range.
  setoid_rewrite elem_of_seqZ.
  split; (intros [H|(c & H)]; [by left|right; exists c]).
  - split; [|done]. destruct H as (_ & H & _). unfold in_span in H. lia.
  - tauto.
Qed.

Global Instance survives_dec s : Decision (survives s).
Proof.
  refine (cast_if (decide (blockRow s = 0
    ∨ Exists (placed_col s) (for_range (blockPos s) (blockPos s + BLOCK_WIDTH)))));
    by rewrite survives_scan.
Defined.

(** ** Comparisons and constants *)

Ltac zcmp :=
  repeat match goal with
    | |- context [?a <=? ?b] => destruct (Z.leb_spec a b)
    | |- context [?a <? ?b] => destruct (Z.ltb_spec a b)
    | |- context [?a >=? ?b] => destruct (Z.geb_spec a b)
    | |- context [?a >? ?b] => destruct (Z.gtb_spec a b)
    | |- context [?a =? ?b] => destruct (Z.eqb_spec a b)
    end.

Ltac consts :=
  unfold WIDTH, HEIGHT, BLOCK_WIDTH, INITIAL_DELAY, MIN_DELAY, DELAY_STEP in *.

Lemma in_grid_true row col :
  in_grid row col = true ↔ (0 ≤ row < HEIGHT) ∧ (0 ≤ col < WIDTH).
Proof. unfold in_grid. zcmp; simpl; split; intros; try done; lia. Qed.

Lemma in_grid_false row col :
  in_grid row col = false ↔ ¬ ((0 ≤ row < HEIGHT) ∧ (0 ≤ col < WIDTH)).
Proof. rewrite <- in_grid_true. destruct (in_grid row col); naive_solver. Qed.

Lemma elem_of_for_range lo hi k : k ∈ for_range lo hi ↔ lo ≤ k < hi.
Proof. unfold for_range. rewrite elem_of_seqZ. lia. Qed.

(** ** The array *)

Section grid.
Implicit Types (g : Grid) (row col v : Z).

Lemma grid_get_outside g row col :
  ¬ ((0 ≤ row < HEIGHT) ∧ (0 ≤ col < WIDTH)) → grid_get g row col = None.
Proof.
  intros H. unfold grid_get. apply in_grid_false in H. by rewrite H.
Qed.

Lemma grid_get_inside g row col v :
  grid_get g row col = Some v → (0 ≤ row < HEIGHT) ∧ (0 ≤ col < WIDTH).
Proof.
  unfold grid_get. destruct (in_grid row col) eqn:E; [|done].
  intros _. by apply in_grid_true.
Qed.

Lemma grid_wf_row g row :
  grid_wf g → 0 ≤ row < HEIGHT →
  ∃ r, g !! Z.to_nat row = Some r ∧ length r = Z.to_nat WIDTH.
Proof.
  intros [Hlen Hrows] Hrow.
  destruct (lookup_lt_is_Some_2 g (Z.to_nat row)) as [r Hr]; [lia|].
  exists r. split; [done|].
  rewrite Forall_lookup in Hrows. by eapply Hrows.
Qed.

Lemma grid_get_defined g row col :
  grid_wf g → 0 ≤ row < HEIGHT → 0 ≤ col < WIDTH →
  is_Some (grid_get g row col).
Proof.
  intros Hwf Hrow Hcol. unfold grid_get.
  replace (in_grid row col) with true by (symmetry; by apply in_grid_true).
  destruct (grid_wf_row g row Hwf Hrow) as (r & -> & Hr). simpl.
  apply lookup_lt_is_Some_2. lia.
Qed.

Lemma grid_set_spec g row col v :
  grid_wf g → 0 ≤ row < HEIGHT → 0 ≤ col < WIDTH →
  ∃ g', grid_set g row col v = Some g' ∧ grid_wf g' ∧
        ∀ row' col', grid_get g' row' col' =
                     if decide (row' = row ∧ col' = col) then Some v
                     else grid_get g row' col'.
Proof.
  intros Hwf Hrow Hcol. unfold grid_set.
  replace (in_grid row col) with true by (symmetry; by apply in_grid_true).
  destruct (grid_wf_row g row Hwf Hrow) as (r & Hr & Hlen). rewrite Hr. simpl.
  destruct (lookup_lt_is_Some_2 r (Z.to_nat col)) as [x ->]; [lia|]. simpl.
  eexists. split; [done|]. split.
  - destruct Hwf as [Hl Hall]. split; [by rewrite length_insert|].
    apply Forall_insert; [done|]. by rewrite length_insert.
  - intros row' col'. unfold grid_get.
    destruct (in_grid row' col') eqn:E.
    + apply in_grid_true in E.
      destruct (decide (row' = row)) as [->|Hne].
      * rewrite list_lookup_insert_eq, Hr by (apply lookup_lt_Some in Hr; lia).
        simpl. destruct (decide (col' = col)) as [->|Hne].
        -- rewrite list_lookup_insert_eq by lia. by rewrite decide_True.
        -- rewrite list_lookup_insert_ne by lia.
           rewrite decide_False; [done|]. by intros [_ ?].
      * rewrite list_lookup_insert_ne by lia.
        rewrite decide_False; [done|]. by intros [? _].
    + apply in_grid_false in E. rewrite decide_False; [done|].
      intros [-> ->]. apply E. lia.
Qed.

(** Two arrays of the declared shape with the same cells are equal. *)
Lemma grid_ext g1 g2 :
  grid_wf g1 → grid_wf g2 →
  (∀ row col, grid_get g1 row col = grid_get g2 row col) → g1 = g2.
Proof.
  intros Hwf1 Hwf2 Hget. apply list_eq. intros i.
  destruct (decide (i < Z.to_nat HEIGHT)%nat) as [Hi|Hi].
  - destruct (grid_wf_row g1 (Z.of_nat i) Hwf1) as (r1 & Hr1 & Hl1); [lia|].
    destruct (grid_wf_row g2 (Z.of_nat i) Hwf2) as (r2 & Hr2 & Hl2); [lia|].
    rewrite Nat2Z.id in Hr1, Hr2. rewrite Hr1, Hr2. f_equal.
    apply list_eq. intros j.
    destruct (decide (j < Z.to_nat WIDTH)%nat) as [Hj|Hj].
    + specialize (Hget (Z.of_nat i) (Z.of_nat j)). unfold grid_get in Hget.
      replace (in_grid (Z.of_nat i) (Z.of_nat j)) with true in Hget
        by (symmetry; apply in_grid_true; lia).
      rewrite !Nat2Z.id, Hr1, Hr2 in Hget. done.
    + rewrite !lookup_ge_None_2; [done|lia..].
  - destruct Hwf1 as [H1 _], Hwf2 as [H2 _].
    rewrite !lookup_ge_None_2; [done|lia..].
Qed.

Lemma empty_grid_wf : grid_wf empty_grid.
Proof.
  split; [apply length_replicate|].
  apply Forall_replicate, length_replicate.
Qed.

Lemma empty_grid_get row col :
  0 ≤ row < HEIGHT → 0 ≤ col < WIDTH → grid_get empty_grid row col = Some 0.
Proof.
  intros Hrow Hcol. unfold grid_get, empty_grid.
  replace (in_grid row col) with true by (symmetry; by apply in_grid_true).
  rewrite lookup_replicate_2 by (consts; lia).
  apply (lookup_replicate_2 (Z.to_nat WIDTH) 0). consts; lia.
Qed.
End grid.

(** ** Loop invariants *)

(** A loop whose body keeps an invariant indexed by the indices already
    visited runs to its end and establishes the invariant for all of
    them. *)
Lemma foldM_invariant {A B : Type} (f : A → B → option A)
    (I : list B → A → Prop) (l : list B) (a : A) :
  I [] a →
  (∀ pre x a, I pre a → x ∈ l → ∃ a', f a x = Some a' ∧ I (pre ++ [x]) a') →
  ∃ a', foldM f a l = Some a' ∧ I l a'.
Proof.
  intros Hinit Hstep.
  cut (∀ todo pre a, I pre a → (∀ x, x ∈ todo → x ∈ l) →
         ∃ a', foldM f a todo = Some a' ∧ I (pre ++ todo) a').
  { intros Hgen. apply (Hgen l [] a); auto. }
  clear a Hinit. induction todo as [|x todo IH]; intros pre a Hpre Hsub.
  - exists a. by rewrite app_nil_r.
  - destruct (Hstep pre x a Hpre) as (a1 & Hf & Ha1); [apply Hsub; left|].
    destruct (IH (pre ++ [x]) a1 Ha1) as (a2 & Hfold & Ha2).
    { intros y Hy. apply Hsub. by right. }
    exists a2. simpl. rewrite Hf. simpl. split; [done|].
    by rewrite <- app_assoc in Ha2.
Qed.

Ltac split_elem :=
  repeat match goal with
    | H : _ ∈ _ ++ _ |- _ => apply elem_of_app in H as [H|H]
    | H : _ ∈ [_] |- _ => apply list_elem_of_singleton in H; subst
    | H : _ ∈ for_range _ _ |- _ => apply elem_of_for_range in H
    end.

(** Both sides are conditionals on decidable conditions that agree. *)
Ltac decide_cases :=
  repeat case_decide; try done; exfalso;
  rewrite ?elem_of_app, ?list_elem_of_singleton, ?elem_of_for_range in *;
  intuition (subst; eauto; lia).

Section loops.
Implicit Types (g : Grid) (row col : Z).

(** The inner loop of [resetGame] zeroes one row. *)
Lemma clear_row_spec g row :
  grid_wf g → 0 ≤ row < HEIGHT →
  ∃ g', foldM (λ g col, grid_set g row col 0) g (for_range 0 WIDTH) = Some g'
        ∧ grid_wf g'
        ∧ ∀ r c, grid_get g' r c =
                 if decide (r = row ∧ 0 ≤ c < WIDTH) then Some 0
                 else grid_get g r c.
Proof.
  intros Hwf Hrow.
  destruct (foldM_invariant (λ g col, grid_set g row col 0)
    (λ pre g', grid_wf g' ∧ ∀ r c, grid_get g' r c =
       if decide (r = row ∧ c ∈ pre) then Some 0 else grid_get g r c)
    (for_range 0 WIDTH) g) as (g' & Hrun & Hwf' & Hget).
  - split; [done|]. intros r c. rewrite decide_False; [done|].
    intros [_ H]. by apply elem_of_nil in H.
  - intros pre x g1 [Hwf1 Hget1] Hx. apply elem_of_for_range in Hx.
    destruct (grid_set_spec g1 row x 0 Hwf1 Hrow Hx) as (g2 & -> & Hwf2 & Hget2).
    exists g2. split; [done|]. split; [done|]. intros r c.
    rewrite Hget2, Hget1.
    decide_cases.
  - exists g'. split; [done|]. split; [done|]. intros r c. rewrite Hget.
    decide_cases.
Qed.

(** The two loops of [resetGame] leave the array all zero. *)
Lemma clear_stack_spec g : grid_wf g → clear_stack g = Some empty_grid.
Proof.
  intros Hwf. unfold clear_stack.
  destruct (foldM_invariant
    (λ g row, foldM (λ g col, grid_set g row col 0) g (for_range 0 WIDTH))
    (λ pre g', grid_wf g' ∧ ∀ r c, grid_get g' r c =
       if decide (r ∈ pre ∧ 0 ≤ c < WIDTH) then Some 0 else grid_get g r c)
    (for_range 0 HEIGHT) g) as (g' & Hrun & Hwf' & Hget).
  - split; [done|]. intros r c. rewrite decide_False; [done|].
    intros [H _]. by apply elem_of_nil in H.
  - intros pre x g1 [Hwf1 Hget1] Hx. apply elem_of_for_range in Hx.
    destruct (clear_row_spec g1 x Hwf1 Hx) as (g2 & -> & Hwf2 & Hget2).
    exists g2. split; [done|]. split; [done|]. intros r c.
    rewrite Hget2, Hget1.
    decide_cases.
  - rewrite Hrun. f_equal. apply grid_ext; [done|apply empty_grid_wf|].
    intros r c. rewrite Hget. case_decide as Hd.
    + rewrite elem_of_for_range in Hd. symmetry. apply empty_grid_get; tauto.
    + rewrite elem_of_for_range in Hd.
      rewrite !grid_get_outside; [done|tauto..].
Qed.

(** Drawing the stack reads only cells of the array. *)
Lemma draw_stack_defined g : grid_wf g → is_Some (draw_stack g).
Proof.
  intros Hwf. unfold draw_stack.
  destruct (foldM_invariant
    (λ pts row, foldM (draw_cell g row) pts (for_range 0 WIDTH))
    (λ _ _, True) (for_range 0 HEIGHT) []) as (pts & -> & _); [done| |done].
  intros _ row pts _ Hrow. apply elem_of_for_range in Hrow.
  destruct (foldM_invariant (draw_cell g row) (λ _ _, True)
    (for_range 0 WIDTH) pts) as (pts' & -> & _); [done| |by eexists].
  intros _ col pts1 _ Hcol. apply elem_of_for_range in Hcol.
  unfold draw_cell.
  destruct (grid_get_defined g row col Hwf Hrow Hcol) as [v ->].
  by eexists.
Qed.

Lemma print_row_defined g row :
  grid_wf g → 0 ≤ row < HEIGHT → print_row g row = Some tt.
Proof.
  intros Hwf Hrow. unfold print_row.
  destruct (foldM_invariant (λ (_ : unit) col, _ ← grid_get g row col; Some tt)
    (λ _ _, True) (for_range 0 WIDTH) tt) as ([] & -> & _); [done| |done].
  intros _ col _ _ Hcol. apply elem_of_for_range in Hcol.
  destruct (grid_get_defined g row col Hwf Hrow Hcol) as [v ->].
  by eexists.
Qed.
End loops.

(** ** The column loop of [dropBlock] *)

Section drop_loop.
Variables (g : Grid) (row : Z).
Hypothesis (Hwf : grid_wf g) (Hrow : 0 ≤ row < HEIGHT).

Lemma drop_inv_init : drop_inv g row [] (g, false).
Proof.
  split; [done|]. split.
  - intros r c. rewrite decide_False; [done|].
    intros (_ & H & _). by apply elem_of_nil in H.
  - split; [done|]. intros (c & H & _). by apply elem_of_nil in H.
Qed.

Lemma drop_inv_skip pre acc x :
  drop_inv g row pre acc → ¬ lands g row x → drop_inv g row (pre ++ [x]) acc.
Proof.
  intros (Hwf1 & Hget & Hpl) Hno. split; [done|]. split.
  - intros r c. rewrite Hget.
    decide_cases.
  - rewrite Hpl. split; intros (c & Hc & Hl); exists c.
    + rewrite elem_of_app. tauto.
    + split_elem; [done|tauto].
Qed.

Lemma drop_inv_place pre acc x :
  drop_inv g row pre acc → lands g row x →
  ∃ g', grid_set acc.1 row x 1 = Some g' ∧ drop_inv g row (pre ++ [x]) (g', true).
Proof.
  intros (Hwf1 & Hget & Hpl) Hl.
  destruct (grid_set_spec acc.1 row x 1 Hwf1 Hrow (proj1 Hl))
    as (g' & Hset & Hwf' & Hget').
  exists g'. split; [done|]. split; [done|]. split.
  - intros r c. simpl. rewrite Hget', Hget.
    decide_cases.
  - split; [|done]. intros _. exists x. split; [|done].
    rewrite elem_of_app, list_elem_of_singleton. tauto.
Qed.

Lemma drop_column_step pre acc x :
  drop_inv g row pre acc →
  ∃ acc', drop_column row acc x = Some acc' ∧ drop_inv g row (pre ++ [x]) acc'.
Proof.
  intros Hinv. unfold drop_column.
  destruct ((0 <=? x) && (x <? WIDTH)) eqn:Hx.
  - apply andb_true_iff in Hx as [Hx1%Z.leb_le Hx2%Z.ltb_lt].
    destruct (Z.eqb_spec row 0) as [Hr0|Hr0]; simpl.
    + destruct (drop_inv_place pre acc x Hinv) as (g' & -> & Hinv').
      { split; [lia|by left]. }
      by exists (g', true).
    + destruct Hinv as (Hwf1 & Hget & Hpl). rewrite Hget.
      rewrite decide_False by (intros [? _]; lia).
      destruct (grid_get_defined g (row - 1) x Hwf) as [v Hv]; [lia..|].
      rewrite Hv. simpl. destruct (Z.eqb_spec v 1) as [->|Hv1].
      * destruct (drop_inv_place pre acc x) as (g' & -> & Hinv');
          [done|split; [lia|by right]|].
        by exists (g', true).
      * exists acc. split; [done|]. apply drop_inv_skip; [done|].
        intros [_ [?|Hocc]]; [done|]. unfold occupied in Hocc. congruence.
  - exists acc. split; [done|]. apply drop_inv_skip; [done|].
    intros [Hc _]. apply andb_false_iff in Hx as [Hx%Z.leb_gt|Hx%Z.ltb_ge]; lia.
Qed.

Lemma drop_columns_spec p :
  ∃ acc, foldM (drop_column row) (g, false) (for_range p (p + BLOCK_WIDTH))
           = Some acc
         ∧ grid_wf acc.1
         ∧ (∀ r c, grid_get acc.1 r c =
                   if decide (r = row ∧ p ≤ c < p + BLOCK_WIDTH ∧ lands g row c)
                   then Some 1 else grid_get g r c)
         ∧ (acc.2 = true ↔ ∃ c, p ≤ c < p + BLOCK_WIDTH ∧ lands g row c).
Proof.
  destruct (foldM_invariant (drop_column row) (drop_inv g row)
              (for_range p (p + BLOCK_WIDTH)) (g, false))
    as (acc & Hrun & Hwf' & Hget & Hpl).
  - apply drop_inv_init.
  - intros pre x acc Hinv _. by apply drop_column_step.
  - exists acc. split; [done|]. split; [done|]. split.
    + intros r c. rewrite Hget.
      decide_cases.
    + rewrite Hpl. by setoid_rewrite elem_of_for_range.
Qed.
End drop_loop.

(** ** [dropBlock] case by case *)

Section drop.
Variables (rnd : N) (s : State).
Hypothesis (Hwf : grid_wf (stack s)) (Hrow : 0 ≤ blockRow s < HEIGHT).

(** The guarded scan of the block's columns. *)
Lemma drop_scan_spec :
  ∃ acc,
    (if (blockRow s =? 0) || (stackHeight s >? 0) then
       foldM (drop_column (blockRow s)) (stack s, false)
             (for_range (blockPos s) (blockPos s + BLOCK_WIDTH))
     else Some (stack s, false)) = Some acc
    ∧ grid_wf acc.1
    ∧ (∀ r c, grid_get acc.1 r c =
              if decide (r = blockRow s ∧ placed_col s c) then Some 1
              else grid_get (stack s) r c)
    ∧ (acc.2 = true ↔ ∃ c, placed_col s c).
Proof.
  destruct ((blockRow s =? 0) || (stackHeight s >? 0)) eqn:Hguard.
  - assert (blockRow s = 0 ∨ 0 < stackHeight s) as Hg.
    { apply orb_true_iff in Hguard as [H%Z.eqb_eq|H%Z.gtb_lt]; tauto. }
    destruct (drop_columns_spec (stack s) (blockRow s) Hwf Hrow (blockPos s))
      as (acc & Hrun & Hwf' & Hget & Hpl).
    exists acc. split; [done|]. split; [done|]. split.
    + intros r c. rewrite Hget. unfold placed_col, in_span. decide_cases.
    + rewrite Hpl. unfold placed_col, in_span.
      split; intros (c & H); exists c; tauto.
  - assert (¬ (blockRow s = 0 ∨ 0 < stackHeight s)) as Hg.
    { apply orb_false_iff in Hguard as [H1%Z.eqb_neq H2].
      destruct (Z.gtb_spec (stackHeight s) 0); [done|lia]. }
    exists (stack s, false). split; [done|]. split; [done|]. split.
    + intros r c. rewrite decide_False; [done|].
      unfold placed_col. tauto.
    + split; [done|]. intros (c & H & _). tauto.
Qed.

(** Every outcome of a drop. *)
Lemma dropBlock_cases :
  ∃ g',
    grid_wf g'
    ∧ (∀ r c, grid_get g' r c =
              if decide (r = blockRow s ∧ placed_col s c) then Some 1
              else grid_get (stack s) r c)
    ∧ dropBlock rnd s = Some
        (if decide (survives s) then
           let s1 := set_stackHeight (raised_height s)
                       (set_stack g' (set_blockMoving false s)) in
           if decide (HEIGHT ≤ raised_height s) then set_gameOver true s1
           else
             set_moveDelay (Z.max MIN_DELAY (moveDelay s - DELAY_STEP))
               (set_blockMoving true
                  (set_blockPos (random_range rnd 0 (WIDTH - BLOCK_WIDTH + 1))
                     (set_blockRow (blockRow s + 1) s1)))
         else set_gameOver true (set_blockMoving false s)).
Proof.
  destruct drop_scan_spec as ([g' placed] & Hscan & Hwf' & Hget & Hpl).
  simpl in *. exists g'. split; [done|]. split; [done|].
  unfold dropBlock. cbn zeta.
  change (blockRow (set_blockMoving false s)) with (blockRow s).
  change (stackHeight (set_blockMoving false s)) with (stackHeight s).
  change (stack (set_blockMoving false s)) with (stack s).
  change (blockPos (set_blockMoving false s)) with (blockPos s).
  rewrite Hscan. simpl.
  destruct (decide (survives s)) as [Hs|Hs].
  - replace (negb placed && (blockRow s >? 0)) with false; cycle 1.
    { symmetry. apply andb_false_iff. destruct Hs as [H0|Hc].
      - right. destruct (Z.gtb_spec (blockRow s) 0); [lia|done].
      - left. apply negb_false_iff. by apply Hpl. }
    unfold raised_height.
    destruct (Z.geb_spec (blockRow s) (stackHeight s)) as [Hge|Hlt]; simpl.
    + destruct (Z.geb_spec (blockRow s + 1) HEIGHT).
      * by rewrite decide_True by lia.
      * rewrite decide_False by lia. simpl.
        replace (blockRow s + 1 - 1) with (blockRow s) by lia.
        by rewrite print_row_defined.
    + destruct (Z.geb_spec (stackHeight s) HEIGHT).
      * rewrite decide_True by lia. by destruct s.
      * rewrite decide_False by lia. simpl.
        replace (blockRow s + 1 - 1) with (blockRow s) by lia.
        rewrite print_row_defined by done. by destruct s.
  - replace (negb placed && (blockRow s >? 0)) with true; cycle 1.
    { symmetry. apply andb_true_iff. unfold survives in Hs. split.
      - apply negb_true_iff. destruct placed; [|done].
        exfalso. apply Hs. right. by apply Hpl.
      - destruct (Z.gtb_spec (blockRow s) 0); [done|]. exfalso. apply Hs. lia. }
    f_equal. replace g' with (stack s); [by destruct s|].
    apply grid_ext; [done..|]. intros r c. rewrite Hget.
    rewrite decide_False; [done|]. intros [_ H]. apply Hs. right. eauto.
Qed.
End drop.

(** ** Rendering and reset *)

Lemma random_range_bounds rnd :
  0 ≤ random_range rnd 0 (WIDTH - BLOCK_WIDTH + 1) ≤ WIDTH - BLOCK_WIDTH.
Proof.
  unfold random_range.
  change (WIDTH - BLOCK_WIDTH + 1) with 5. change (WIDTH - BLOCK_WIDTH) with 4.
  change (0 >=? 5) with false. change (5 - 0) with 5. cbv iota.
  pose proof (Z.rem_bound_pos (Z.of_N rnd) 5). lia.
Qed.

Lemma updateDisplay_spec s :
  grid_wf (stack s) ∨ testMode s = true →
  ∃ m, updateDisplay s = Some (set_matrix m s).
Proof.
  intros H. unfold updateDisplay. destruct (testMode s) eqn:Ht.
  - by eexists.
  - destruct H as [Hwf|?]; [|done].
    destruct (draw_stack_defined _ Hwf) as [pts ->]. by eexists.
Qed.

(** [resetGame] from any state whose array has the declared shape. *)
Lemma resetGame_spec rnd s :
  grid_wf (stack s) →
  ∃ m, resetGame rnd s =
       Some (mkState (random_range rnd 0 (WIDTH - BLOCK_WIDTH + 1)) 0 true
               empty_grid 0 false (lastMove s) INITIAL_DELAY true false 0 m).
Proof.
  intros Hwf. unfold resetGame. rewrite clear_stack_spec by done. simpl.
  match goal with |- ∃ m, updateDisplay ?t = _ =>
    destruct (updateDisplay_spec t) as [m ->] end.
  - left. apply empty_grid_wf.
  - by exists m.
Qed.

(** ** The invariant *)

Lemma Inv_set_matrix m s : Inv s → Inv (set_matrix m s).
Proof. by intros []. Qed.

Lemma Inv_fresh pos last m :
  0 ≤ pos ≤ WIDTH - BLOCK_WIDTH →
  Inv (mkState pos 0 true empty_grid 0 false last INITIAL_DELAY true false 0 m).
Proof.
  intros Hpos. split; simpl; try (consts; lia); try done.
  - apply empty_grid_wf.
  - intros r c v Hget. pose proof (grid_get_inside _ _ _ _ Hget) as [Hr Hc].
    rewrite empty_grid_get in Hget by done. left. congruence.
  - intros r Hr. split; [|lia]. intros [c Hocc]. unfold occupied in Hocc.
    pose proof (grid_get_inside _ _ _ _ Hocc) as [_ Hc].
    rewrite empty_grid_get in Hocc by done. congruence.
Qed.

Lemma resetGame_Inv rnd s :
  grid_wf (stack s) → ∃ s', resetGame rnd s = Some s' ∧ Inv s'.
Proof.
  intros Hwf. destruct (resetGame_spec rnd s Hwf) as [m ->].
  eexists. split; [done|]. apply Inv_fresh, random_range_bounds.
Qed.

Lemma moveBlock_Inv s : Inv s → Inv (moveBlock s).
Proof.
  intros []. unfold moveBlock. cbn zeta. simpl.
  destruct (moveRight s); zcmp; split; simpl; try done; consts; lia.
Qed.

Lemma advanceTestRow_Inv s : Inv s → Inv (advanceTestRow s).
Proof.
  intros []. split; simpl; try done.
  pose proof (Z.rem_bound_pos (testRow s + 1) HEIGHT). consts. lia.
Qed.

Lemma dropBlock_Inv rnd s :
  Inv s → gameOver s = false → ∃ s', dropBlock rnd s = Some s' ∧ Inv s'.
Proof.
  intros [] Hplay. destruct (inv_active0 Hplay) as [Hmov Heq].
  destruct (dropBlock_cases rnd s) as (g' & Hwf' & Hget & ->); [done..|].
  eexists. split; [done|].
  assert (raised_height s = blockRow s + 1) as Hrh.
  { unfold raised_height. zcmp; lia. }
  destruct (decide (survives s)) as [Hs|Hs].
  - assert (∃ c, placed_col s c) as [c0 Hc0].
    { destruct Hs as [H0|?]; [|done]. exists (blockPos s).
      unfold placed_col, in_span, lands. consts. lia. }
    assert (∀ r c v, grid_get g' r c = Some v → v = 0 ∨ v = 1) as Hcells.
    { intros r c v. rewrite Hget. case_decide; [|by eauto].
      intros [= <-]. by right. }
    assert (∀ r, 0 ≤ r < HEIGHT →
              (∃ c, occupied g' r c) ↔ r < blockRow s + 1) as Hmark.
    { intros r Hr. unfold occupied. split.
      - intros [c Hc]. rewrite Hget in Hc. case_decide; [lia|].
        assert (r < stackHeight s); [|lia]. apply inv_watermark0; [done|].
        by exists c.
      - intros Hlt. destruct (decide (r = blockRow s)) as [->|Hne].
        + exists c0. rewrite Hget. by rewrite decide_True.
        + destruct (proj2 (inv_watermark0 r Hr)) as [c Hc]; [lia|].
          exists c. rewrite Hget. rewrite decide_False; [done|]. tauto. }
    rewrite Hrh. pose proof (random_range_bounds rnd).
    case_decide; cbn zeta; split; simpl; try done; consts; lia.
  - split; simpl; try done.
Qed.

(** ** One pass of [loop()] keeps the invariant *)

Lemma updateDisplay_Inv s : Inv s → ∃ s', updateDisplay s = Some s' ∧ Inv s'.
Proof.
  intros Hinv. destruct (updateDisplay_spec s) as [m ->].
  - left. apply Hinv.
  - eexists. split; [done|]. by apply Inv_set_matrix.
Qed.

Lemma serialPhase_Inv i s : Inv s → ∃ s', serialPhase i s = Some s' ∧ Inv s'.
Proof.
  intros Hinv. unfold serialPhase. destruct (serialIn i) as [c|]; [|by eauto].
  destruct (Ascii.eqb c "t").
  - cbn zeta. simpl. destruct (testMode s); simpl.
    + destruct (resetGame_Inv (rndSerial i) (set_testMode false s))
        as (s1 & -> & Hinv1); [apply Hinv|].
      simpl. by apply updateDisplay_Inv.
    + apply updateDisplay_Inv. by destruct Hinv.
  - destruct (testMode s && Ascii.eqb c "n"); simpl.
    + by apply updateDisplay_Inv, advanceTestRow_Inv.
    + by apply updateDisplay_Inv.
Qed.

Lemma testPhase_Inv i s : Inv s → ∃ s', testPhase i s = Some s' ∧ Inv s'.
Proof.
  intros Hinv. unfold testPhase. destruct (pressed i); [|by eauto].
  by apply updateDisplay_Inv, advanceTestRow_Inv.
Qed.

Lemma gameOverPhase_Inv i s :
  Inv s → ∃ s', gameOverPhase i s = Some s' ∧ Inv s'.
Proof.
  intros Hinv. unfold gameOverPhase.
  destruct (updateDisplay_Inv (set_matrix [] s)) as (s1 & -> & Hinv1);
    [by apply Inv_set_matrix|].
  simpl. destruct (pressed i); [|by eauto].
  apply resetGame_Inv, Hinv1.
Qed.

Lemma motionPhase_spec i s :
  grid_wf (stack s) →
  motionPhase i s = Some s
  ∨ ∃ m, motionPhase i s =
         Some (set_matrix m (set_lastMove (to_ulong (clockStore i)) (moveBlock s))).
Proof.
  intros Hwf. unfold motionPhase.
  destruct (blockMoving s && _); [|by left]. right.
  match goal with |- ∃ m, updateDisplay ?t = _ =>
    destruct (updateDisplay_spec t) as [m ->] end; [|by eexists].
  left. unfold moveBlock. cbn zeta. simpl. by zcmp.
Qed.

Lemma moveBlock_frame s :
  stack (moveBlock s) = stack s ∧ stackHeight (moveBlock s) = stackHeight s
  ∧ blockRow (moveBlock s) = blockRow s ∧ gameOver (moveBlock s) = gameOver s
  ∧ testMode (moveBlock s) = testMode s ∧ moveDelay (moveBlock s) = moveDelay s
  ∧ blockMoving (moveBlock s) = blockMoving s ∧ testRow (moveBlock s) = testRow s.
Proof. unfold moveBlock. cbn zeta. simpl. by zcmp. Qed.

Lemma motionPhase_Inv i s :
  Inv s → ∃ s', motionPhase i s = Some s' ∧ Inv s' ∧ gameOver s' = gameOver s.
Proof.
  intros Hinv. destruct (motionPhase_spec i s) as [->|[m ->]]; [apply Hinv|by eauto|].
  eexists. split; [done|]. split.
  - apply Inv_set_matrix. by destruct (moveBlock_Inv s Hinv).
  - simpl. apply moveBlock_frame.
Qed.

Lemma buttonPhase_Inv i s :
  Inv s → gameOver s = false → ∃ s', buttonPhase i s = Some s' ∧ Inv s'.
Proof.
  intros Hinv Hplay. unfold buttonPhase. destruct (pressed i); [|by eauto].
  destruct (dropBlock_Inv (rndMain i) s Hinv Hplay) as (s1 & -> & Hinv1).
  simpl. by apply updateDisplay_Inv.
Qed.

Lemma loop_Inv i s : Inv s → ∃ s', loop i s = Some s' ∧ Inv s'.
Proof.
  intros Hinv. unfold loop.
  destruct (serialPhase_Inv i s Hinv) as (s1 & -> & Hinv1). simpl.
  destruct (testMode s1); [by apply testPhase_Inv|].
  destruct (gameOver s1) eqn:Hover; [by apply gameOverPhase_Inv|].
  destruct (motionPhase_Inv i s1 Hinv1) as (s2 & -> & Hinv2 & Hover2). simpl.
  apply buttonPhase_Inv; [done|congruence].
Qed.

Lemma run_Inv ins s : Inv s → ∃ s', run ins s = Some s' ∧ Inv s'.
Proof.
  revert s. induction ins as [|i ins IH]; intros s Hinv; [by exists s|].
  destruct (loop_Inv i s Hinv) as (s1 & Hloop & Hinv1).
  destruct (IH s1 Hinv1) as (s2 & Hrun & Hinv2).
  exists s2. split; [|done]. unfold run in *. simpl. by rewrite Hloop.
Qed.

Lemma setup_Inv rnd : ∃ s, setup rnd = Some s ∧ Inv s.
Proof. unfold setup. apply resetGame_Inv, empty_grid_wf. Qed.

(** The sketch never leaves the array, whatever it is fed. *)
Lemma run_defined rnd ins : ∃ s, setup rnd ≫= run ins = Some s ∧ Inv s.
Proof.
  destruct (setup_Inv rnd) as (s0 & -> & Hinv0). simpl. by apply run_Inv.
Qed.

Lemma reachable_Inv s : reachable s → Inv s.
Proof.
  intros (rnd & ins & Hrun).
  destruct (run_defined rnd ins) as (s' & Hrun' & Hinv). congruence.
Qed.

(** The [int] globals stay small: the arithmetic of the sketch
    ([blockPos + 1], [blockPos + BLOCK_WIDTH], [blockRow + 1],
    [moveDelay - 10], [testRow + 1]) never leaves the range of a 16-bit
    [int], which is why the globals are modelled as unbounded integers. *)
Lemma reachable_int_range s :
  reachable s →
  0 ≤ blockPos s ≤ 4 ∧ 0 ≤ blockRow s ≤ 31 ∧ 0 ≤ stackHeight s ≤ 32
  ∧ 50 ≤ moveDelay s ≤ 200 ∧ 0 ≤ testRow s ≤ 31.
Proof. intros [] %reachable_Inv. consts. lia. Qed.

(** ** Sample states *)

Lemma one_row_state_reachable : reachable one_row_state.
Proof. exists 2%N, [press 0]. by vm_compute. Qed.

Lemma top_row_state_reachable : reachable top_row_state.
Proof. exists 0%N, (replicate 31 (press 0)). by vm_compute. Qed.

Lemma gap_state_reachable : reachable gap_state.
Proof. exists 0%N, [press 4]. by vm_compute. Qed.

(** * The claims *)

(** ** Drop resolution *)

(** C1 (as amended): for a drop while playing, from a state satisfying the
    invariant (so 0 <= blockPos <= WIDTH - BLOCK_WIDTH and the block is
    active at row r): every column c of the block's span with r = 0 or
    cell (r-1, c) occupied before the drop has cell (r, c) occupied after
    it, and no other cell changes; and if at least one column rests this
    way and r + 1 < HEIGHT, the game is still being played, the block is
    active at row r + 1 and its position is the fresh random value, which
    lies in 0 .. WIDTH - BLOCK_WIDTH. *)
Theorem drop_places_resting_columns rnd s :
  Inv s → playing s →
  ∃ s', dropBlock rnd s = Some s'
    ∧ (∀ c, in_span s c →
            blockRow s = 0 ∨ occupied (stack s) (blockRow s - 1) c →
            occupied (stack s') (blockRow s) c)
    ∧ (∀ r c, ¬ (r = blockRow s ∧ in_span s c
                  ∧ (blockRow s = 0 ∨ occupied (stack s) (blockRow s - 1) c)) →
              grid_get (stack s') r c = grid_get (stack s) r c)
    ∧ ((∃ c, in_span s c
             ∧ (blockRow s = 0 ∨ occupied (stack s) (blockRow s - 1) c)) →
       blockRow s + 1 < HEIGHT →
       playing s' ∧ blockMoving s' = true ∧ blockRow s' = blockRow s + 1
       ∧ blockPos s' = random_range rnd 0 (WIDTH - BLOCK_WIDTH + 1)
       ∧ 0 ≤ blockPos s' ≤ WIDTH - BLOCK_WIDTH).
Proof.
  intros Hinv [Hover Htest].
  destruct (inv_active s Hinv Hover) as [Hmov Heq].
  pose proof (inv_pos s Hinv) as Hpos. pose proof (inv_row s Hinv) as Hrow.
  destruct (dropBlock_cases rnd s) as (g' & Hwf' & Hget & ->);
    [apply Hinv|done|].
  assert (∀ c, in_span s c →
            blockRow s = 0 ∨ occupied (stack s) (blockRow s - 1) c →
            placed_col s c) as Hplaced.
  { intros c Hc Hrest. unfold placed_col, lands. unfold in_span in *.
    split; [lia|]. split; [done|]. split; [consts; lia|done]. }
  assert (raised_height s = blockRow s + 1) as Hrh.
  { unfold raised_height. zcmp; lia. }
  eexists. split; [done|]. split; [|split].
  - intros c Hc Hrest. specialize (Hplaced c Hc Hrest).
    rewrite decide_True by (right; eauto).
    unfold occupied. case_decide; simpl; rewrite Hget; by rewrite decide_True.
  - intros r c Hno. destruct (decide (survives s)) as [Hs|Hs]; [|done].
    assert (grid_get g' r c = grid_get (stack s) r c) as Hsame.
    { rewrite Hget. rewrite decide_False; [done|].
      intros [-> (_ & Hc & _ & Hl)]. apply Hno. eauto. }
    by case_decide.
  - intros (c & Hc & Hrest) Hroom. specialize (Hplaced c Hc Hrest).
    rewrite decide_True by (right; eauto).
    rewrite decide_False by lia. cbn zeta. simpl.
    pose proof (random_range_bounds rnd). done.
Qed.

Lemma drop_places_resting_columns_witness :
  Inv one_row_state ∧ playing one_row_state
  ∧ ∃ s', dropBlock 4 one_row_state = Some s'
    ∧ occupied (stack s') 1 2 ∧ occupied (stack s') 1 3
    ∧ playing s' ∧ blockRow s' = 2 ∧ blockPos s' = 4.
Proof.
  assert (Inv one_row_state) as Hinv
    by apply reachable_Inv, one_row_state_reachable.
  assert (playing one_row_state) as Hplay by done.
  split; [done|]. split; [done|].
  destruct (drop_places_resting_columns 4 one_row_state Hinv Hplay)
    as (s' & Hdrop & Hocc & _ & Hadv).
  exists s'. split; [done|].
  assert (occupied (stack one_row_state) (blockRow one_row_state - 1) 2)
    as H2 by done.
  assert (occupied (stack one_row_state) (blockRow one_row_state - 1) 3)
    as H3 by done.
  split; [apply (Hocc 2); [by vm_compute|by right]|].
  split; [apply (Hocc 3); [by vm_compute|by right]|].
  destruct Hadv as (Hp & _ & Hr & Hb & _).
  - exists 2. split; [by vm_compute|by right].
  - by vm_compute.
  - done.
Defined.

(** C1, counterexample to the claim as stated: on the last row the block
    rests on the stack under every one of its columns, the columns are
    placed, and yet the game is over and the block stays at its row. *)
Lemma drop_on_last_row_ends_game :
  reachable top_row_state ∧ playing top_row_state
  ∧ blockMoving top_row_state = true
  ∧ (∀ c, in_span top_row_state c →
          occupied (stack top_row_state) (blockRow top_row_state - 1) c)
  ∧ ∃ s', dropBlock 0 top_row_state = Some s'
      ∧ (∀ c, in_span top_row_state c →
              occupied (stack s') (blockRow top_row_state) c)
      ∧ gameOver s' = true
      ∧ blockRow s' ≠ blockRow top_row_state + 1.
Proof.
  split; [apply top_row_state_reachable|]. split; [done|]. split; [done|].
  assert (∀ c, in_span top_row_state c → c = 0 ∨ c = 1 ∨ c = 2 ∨ c = 3) as Hc.
  { unfold in_span. simpl. consts. lia. }
  split.
  - intros c [->|[->|[->| ->]]]%Hc; by vm_compute.
  - eexists. split; [by vm_compute|]. split; [|done].
    intros c [->|[->|[->| ->]]]%Hc; by vm_compute.
Qed.

(** C2: a drop at a row r > 0 with no occupied cell directly below any
    column of the block's span ends the game and leaves the array and
    stackHeight (and the block's row and position) as they were. *)
Theorem missed_drop_ends_game rnd s :
  grid_wf (stack s) → 0 < blockRow s < HEIGHT →
  (∀ c, in_span s c → ¬ occupied (stack s) (blockRow s - 1) c) →
  ∃ s', dropBlock rnd s = Some s'
    ∧ gameOver s' = true
    ∧ stack s' = stack s ∧ stackHeight s' = stackHeight s
    ∧ blockRow s' = blockRow s ∧ blockPos s' = blockPos s.
Proof.
  intros Hwf Hrow Hmiss.
  destruct (dropBlock_cases rnd s) as (g' & Hwf' & Hget & ->); [done|lia|].
  rewrite decide_False; [by eexists|].
  intros [H0|(c & _ & Hc & _ & [H0|Hocc])]; [lia|lia|]. by apply (Hmiss c).
Qed.

Lemma missed_drop_ends_game_witness :
  grid_wf (stack gap_state) ∧ 0 < blockRow gap_state < HEIGHT
  ∧ (∀ c, in_span gap_state c →
          ¬ occupied (stack gap_state) (blockRow gap_state - 1) c)
  ∧ ∃ s', dropBlock 0 gap_state = Some s'
      ∧ gameOver s' = true
      ∧ stack s' = stack gap_state ∧ stackHeight s' = stackHeight gap_state.
Proof.
  assert (grid_wf (stack gap_state)) as Hwf
    by apply reachable_Inv, gap_state_reachable.
  assert (0 < blockRow gap_state < HEIGHT) as Hrow by (by vm_compute).
  assert (∀ c, in_span gap_state c →
            ¬ occupied (stack gap_state) (blockRow gap_state - 1) c) as Hmiss.
  { intros c Hc.
    assert (c = 4 ∨ c = 5 ∨ c = 6 ∨ c = 7) as [->|[->|[->| ->]]]
      by (unfold in_span in Hc; simpl in Hc; consts; lia);
      by vm_compute. }
  split; [done|]. split; [done|]. split; [done|].
  destruct (missed_drop_ends_game 0 gap_state Hwf Hrow Hmiss)
    as (s' & Hdrop & Hover & Hst & Hh & _).
  by exists s'.
Defined.

(** C3: a drop after which stackHeight is at least HEIGHT leaves the game
    over and the block at its row; a drop that is not a miss sets
    stackHeight to the raised height and, when that is below HEIGHT, moves
    the block to the next row and keeps it active. *)
Theorem drop_tops_out_or_advances rnd s :
  grid_wf (stack s) → 0 ≤ blockRow s < HEIGHT →
  ∃ s', dropBlock rnd s = Some s'
    ∧ (HEIGHT ≤ stackHeight s' →
       gameOver s' = true ∧ blockRow s' = blockRow s ∧ blockMoving s' = false)
    ∧ (survives s → stackHeight s' = raised_height s)
    ∧ (survives s → stackHeight s' < HEIGHT →
       blockRow s' = blockRow s + 1 ∧ blockMoving s' = true
       ∧ gameOver s' = gameOver s).
Proof.
  intros Hwf Hrow.
  destruct (dropBlock_cases rnd s) as (g' & Hwf' & Hget & ->); [done..|].
  eexists. split; [done|].
  destruct (decide (survives s)) as [Hs|Hs]; [|by repeat split].
  cbn zeta. case_decide; simpl; repeat split; try done; lia.
Qed.

Lemma drop_tops_out_or_advances_witness :
  grid_wf (stack top_row_state) ∧ 0 ≤ blockRow top_row_state < HEIGHT
  ∧ ∃ s', dropBlock 0 top_row_state = Some s'
      ∧ stackHeight s' = HEIGHT ∧ gameOver s' = true
      ∧ blockRow s' = blockRow top_row_state.
Proof.
  assert (grid_wf (stack top_row_state)) as Hwf
    by apply reachable_Inv, top_row_state_reachable.
  assert (0 ≤ blockRow top_row_state < HEIGHT) as Hrow by (by vm_compute).
  split; [done|]. split; [done|].
  destruct (drop_tops_out_or_advances 0 top_row_state Hwf Hrow)
    as (s' & Hdrop & Htop & Hraise & _).
  exists s'. split; [done|].
  assert (stackHeight s' = HEIGHT) as Hh
    by (rewrite Hraise; [|apply (bool_decide_unpack (survives _))];
        by vm_compute).
  split; [done|]. destruct Htop as (? & ? & _); [lia|done].
Defined.

(** ** Horizontal motion *)

(** C4: from a position within 0 .. WIDTH - BLOCK_WIDTH, one motion step
    adds +1 or -1 according to the direction and clamps the result to that
    range, so the position stays within it (also after any number of
    steps); the direction changes exactly when the new position is 0 or
    WIDTH - BLOCK_WIDTH; at 0 the direction is right, at
    WIDTH - BLOCK_WIDTH it is left. *)
Theorem sweep_stays_in_range s :
  0 ≤ blockPos s ≤ WIDTH - BLOCK_WIDTH →
  let s' := moveBlock s in
  0 ≤ blockPos s' ≤ WIDTH - BLOCK_WIDTH
  ∧ blockPos s' =
      Z.max 0 (Z.min (WIDTH - BLOCK_WIDTH)
                     (blockPos s + if moveRight s then 1 else -1))
  ∧ (moveRight s' ≠ moveRight s ↔
     blockPos s' = 0 ∨ blockPos s' = WIDTH - BLOCK_WIDTH)
  ∧ (blockPos s' = 0 → moveRight s' = true)
  ∧ (blockPos s' = WIDTH - BLOCK_WIDTH → moveRight s' = false)
  ∧ ∀ n, 0 ≤ blockPos (Nat.iter n moveBlock s) ≤ WIDTH - BLOCK_WIDTH.
Proof.
  intros Hpos.
  assert (∀ t, 0 ≤ blockPos (moveBlock t) ≤ WIDTH - BLOCK_WIDTH) as Hstep.
  { intros t. unfold moveBlock. cbn zeta. simpl.
    destruct (moveRight t); zcmp; simpl; consts; lia. }
  cbn zeta. repeat split; try apply Hstep.
  all: try (destruct n as [|n]; [simpl; lia|apply Hstep]).
  all: unfold moveBlock; cbn zeta; simpl.
  all: destruct (moveRight s) eqn:Hdir; zcmp; simpl; rewrite ?Hdir.
  all: try intros ?; try done; consts; lia.
Qed.

Lemma sweep_stays_in_range_witness :
  0 ≤ blockPos one_row_state ≤ WIDTH - BLOCK_WIDTH
  ∧ blockPos (moveBlock one_row_state) = 1
  ∧ moveRight (moveBlock one_row_state) = moveRight one_row_state
  ∧ 0 ≤ blockPos (Nat.iter 9 moveBlock one_row_state) ≤ WIDTH - BLOCK_WIDTH.
Proof.
  assert (0 ≤ blockPos one_row_state ≤ WIDTH - BLOCK_WIDTH) as Hpos
    by (by vm_compute).
  split; [done|].
  destruct (sweep_stays_in_range one_row_state Hpos)
    as (_ & Hclamp & _ & _ & _ & Hiter).
  split; [by rewrite Hclamp|]. split; [done|]. apply Hiter.
Defined.

(** ** Frames *)

Lemma updateDisplay_inv s s' :
  updateDisplay s = Some s' → ∃ m, s' = set_matrix m s.
Proof.
  unfold updateDisplay. destruct (testMode s).
  - intros [= <-]. by eexists.
  - destruct (draw_stack (stack s)); simpl; [|done]. intros [= <-]. by eexists.
Qed.

Lemma same_game_refl s : same_game s s.
Proof. by repeat split. Qed.

Lemma same_game_trans s1 s2 s3 :
  same_game s1 s2 → same_game s2 s3 → same_game s1 s3.
Proof.
  unfold same_game, same_grid. intros (? & ? & ? & ? & ?) (? & ? & ? & ? & ?).
  repeat split; destruct_and?; congruence.
Qed.

Lemma updateDisplay_same_game s s' : updateDisplay s = Some s' → same_game s s'.
Proof. intros [m ->]%updateDisplay_inv. by repeat split. Qed.

Lemma moveBlock_same_game s : same_game s (moveBlock s).
Proof. pose proof (moveBlock_frame s). unfold same_game, same_grid. tauto. Qed.

Lemma serialPhase_quiet i s s' :
  serialPhase i s = Some s' → serialIn i ≠ Some "t"%char → same_game s s'.
Proof.
  unfold serialPhase. destruct (serialIn i) as [c|].
  - intros Hs Hnt. destruct (Ascii.eqb_spec c "t") as [Heq|_]; [by subst|].
    destruct (testMode s && Ascii.eqb c "n"); simpl in Hs;
      apply updateDisplay_inv in Hs as [m ->]; by repeat split.
  - intros [= <-] _. apply same_game_refl.
Qed.

Lemma motionPhase_same_game i s s' :
  motionPhase i s = Some s' → same_game s s'.
Proof.
  unfold motionPhase. destruct (blockMoving s && _).
  - intros [m ->]%updateDisplay_inv.
    pose proof (moveBlock_frame s). unfold same_game, same_grid. simpl. tauto.
  - intros [= <-]. apply same_game_refl.
Qed.

(** A pass of [loop()] without a confirmed press and without the toggle
    byte neither drops nor resets. *)
Lemma loop_quiet i s s' :
  loop i s = Some s' → pressed i = false → serialIn i ≠ Some "t"%char →
  same_game s s'.
Proof.
  intros Hloop Hnp Hnt. unfold loop in Hloop.
  destruct (serialPhase i s) as [s1|] eqn:Hs1; [|done]. simpl in Hloop.
  apply serialPhase_quiet in Hs1; [|done].
  apply (same_game_trans _ s1); [done|].
  destruct (testMode s1).
  { unfold testPhase in Hloop. rewrite Hnp in Hloop.
    injection Hloop as <-. apply same_game_refl. }
  destruct (gameOver s1).
  { unfold gameOverPhase in Hloop.
    destruct (updateDisplay (set_matrix [] s1)) as [s2|] eqn:Hs2; [|done].
    simpl in Hloop. rewrite Hnp in Hloop. injection Hloop as <-.
    apply updateDisplay_inv in Hs2 as [m ->]. by repeat split. }
  destruct (motionPhase i s1) as [s2|] eqn:Hs2; [|done]. simpl in Hloop.
  unfold buttonPhase in Hloop. rewrite Hnp in Hloop. injection Hloop as <-.
  by eapply motionPhase_same_game.
Qed.

Lemma Inv_watermark s : Inv s → height_is_watermark s.
Proof.
  intros Hinv. pose proof (inv_height s Hinv) as Hh.
  destruct (decide (stackHeight s = 0)) as [H0|Hpos].
  - left. split; [done|]. intros r c Hocc.
    pose proof (grid_get_inside _ _ _ _ Hocc) as [Hr _].
    assert (r < stackHeight s); [|lia]. apply (inv_watermark s Hinv); eauto.
  - right. split; [lia|]. split.
    + apply (inv_watermark s Hinv); lia.
    + intros r c Hocc. pose proof (grid_get_inside _ _ _ _ Hocc) as [Hr _].
      apply (inv_watermark s Hinv); eauto.
Qed.

(** ** The height of the stack *)

(** C5: in every state the sketch can reach, stackHeight is one more than
    the highest row holding an occupied cell, or 0 if there is none; a drop
    sets stackHeight to blockRow + 1 exactly when it is not a miss and
    blockRow + 1 exceeds stackHeight, and leaves it alone otherwise, and it
    never clears an occupied cell; a step of the sweep, an advance of the test cursor, a redraw, and a whole pass
    of [loop()] without a press or a toggle of test mode leave it alone. *)
Theorem stackHeight_is_watermark s :
  reachable s →
  height_is_watermark s
  ∧ (∀ rnd, ∃ s', dropBlock rnd s = Some s'
       ∧ stackHeight s' =
           (if decide (survives s ∧ stackHeight s < blockRow s + 1)
            then blockRow s + 1 else stackHeight s)
       ∧ ∀ r c, occupied (stack s) r c → occupied (stack s') r c)
  ∧ stackHeight (moveBlock s) = stackHeight s
  ∧ stackHeight (advanceTestRow s) = stackHeight s
  ∧ (∀ s', updateDisplay s = Some s' → stackHeight s' = stackHeight s)
  ∧ (∀ i s', loop i s = Some s' → pressed i = false →
             serialIn i ≠ Some "t"%char → same_grid s s').
Proof.
  intros Hinv%reachable_Inv. split; [by apply Inv_watermark|].
  split; [|split; [apply moveBlock_frame|split; [done|split]]].
  - intros rnd.
    destruct (dropBlock_cases rnd s) as (g' & Hwf' & Hget & ->);
      [apply Hinv..|].
    eexists. split; [done|]. split.
    + unfold raised_height. destruct (decide (survives s)) as [Hs|Hs].
      * cbn zeta. destruct (Z.geb_spec (blockRow s) (stackHeight s)).
        -- rewrite (decide_True (P := survives s ∧ _)) by (split; [done|lia]).
           by case_decide.
        -- rewrite (decide_False (P := survives s ∧ _)) by (intros [_ ?]; lia).
           by case_decide.
      * rewrite decide_False by tauto. done.
    + intros r c Hocc.
      assert (occupied g' r c) as Hocc'.
      { unfold occupied. rewrite Hget. by case_decide. }
      by repeat case_decide.
  - intros s' [m ->]%updateDisplay_inv. done.
  - intros i s' Hloop Hnp Hnt. by destruct (loop_quiet i s s').
Qed.

Lemma stackHeight_is_watermark_witness :
  reachable one_row_state
  ∧ height_is_watermark one_row_state
  ∧ ∃ s', dropBlock 4 one_row_state = Some s' ∧ stackHeight s' = 2.
Proof.
  split; [apply one_row_state_reachable|].
  destruct (stackHeight_is_watermark one_row_state one_row_state_reachable)
    as (Hmark & Hdrop & _).
  split; [done|]. destruct (Hdrop 4%N) as (s' & Hs' & Hh & _).
  exists s'. split; [done|]. rewrite Hh. rewrite decide_True; [done|].
  split; [|by vm_compute]. apply (bool_decide_unpack (survives _)).
  by vm_compute.
Defined.

(** ** Reset *)

Lemma fresh_game_mkState pos last m :
  0 ≤ pos ≤ WIDTH - BLOCK_WIDTH →
  fresh_game
    (mkState pos 0 true empty_grid 0 false last INITIAL_DELAY true false 0 m).
Proof.
  intros Hpos. unfold fresh_game, playing. simpl.
  repeat split; try done; try lia. intros r c. apply empty_grid_get.
Qed.

Lemma resetGame_fresh rnd s :
  grid_wf (stack s) → ∃ s', resetGame rnd s = Some s' ∧ fresh_game s'.
Proof.
  intros Hwf. destruct (resetGame_spec rnd s Hwf) as [m ->].
  eexists. split; [done|]. apply fresh_game_mkState, random_range_bounds.
Qed.

Lemma serialPhase_exit_fresh i s :
  grid_wf (stack s) → testMode s = true → serialIn i = Some "t"%char →
  ∃ s', serialPhase i s = Some s' ∧ fresh_game s'.
Proof.
  intros Hwf Ht Hc. unfold serialPhase. rewrite Hc. simpl. rewrite Ht. simpl.
  destruct (resetGame_spec (rndSerial i) (set_testMode false s) Hwf)
    as [m ->]. simpl.
  match goal with |- ∃ s', updateDisplay ?t = _ ∧ _ =>
    destruct (updateDisplay_spec t) as [m' ->] end.
  - left. apply empty_grid_wf.
  - eexists. split; [done|].
    apply fresh_game_mkState, random_range_bounds.
Qed.

(** C6: [resetGame], from any state whose array has the declared shape,
    returns a state in which every cell of the array is 0, stackHeight is
    0, moveDelay is 200, the game is being played (not over, not in test
    mode) and the block is active at row 0 with
    0 <= blockPos <= WIDTH - BLOCK_WIDTH.  This is the state [setup()]
    ends in, the state after a confirmed press while the game is over, and
    the state after the toggle byte while in test mode. *)
Theorem reset_postconditions rnd i s :
  grid_wf (stack s) →
  (∃ s', resetGame rnd s = Some s' ∧ fresh_game s')
  ∧ (∃ s', setup rnd = Some s' ∧ fresh_game s')
  ∧ (gameOver s = true → pressed i = true →
     ∃ s', gameOverPhase i s = Some s' ∧ fresh_game s')
  ∧ (testMode s = true → serialIn i = Some "t"%char →
     ∃ s', serialPhase i s = Some s' ∧ fresh_game s').
Proof.
  intros Hwf. split; [by apply resetGame_fresh|]. split; [|split].
  - unfold setup. apply resetGame_fresh, empty_grid_wf.
  - intros _ Hp. unfold gameOverPhase.
    destruct (updateDisplay_spec (set_matrix [] s)) as [m ->]; [by left|].
    simpl. rewrite Hp. by apply resetGame_fresh.
  - intros Ht Hc. by apply serialPhase_exit_fresh.
Qed.

Lemma reset_postconditions_witness :
  grid_wf (stack over_in_test_state)
  ∧ (∃ s', resetGame 7 over_in_test_state = Some s' ∧ fresh_game s')
  ∧ (∃ s', gameOverPhase (press 7) over_in_test_state = Some s'
           ∧ fresh_game s')
  ∧ (∃ s', serialPhase (mkInput (Some "t"%char) true true 0 0 0 7)
             over_in_test_state = Some s' ∧ fresh_game s').
Proof.
  assert (grid_wf (stack over_in_test_state)) as Hwf.
  { apply reachable_Inv.
    exists 0%N, [press 4; press 0; mkInput (Some "t"%char) false false 0 0 0 0].
    by vm_compute. }
  split; [done|].
  destruct (reset_postconditions 7 (press 7) over_in_test_state Hwf)
    as (Hreset & _ & Hrestart & _).
  destruct (reset_postconditions 7 (mkInput (Some "t"%char) true true 0 0 0 7)
              over_in_test_state Hwf) as (_ & _ & _ & Hexit).
  split; [exact Hreset|]. split.
  - apply Hrestart; reflexivity.
  - apply Hexit; reflexivity.
Defined.

(** ** Difficulty *)

(** A drop that leaves the game running took the last branch of
    [dropBlock]. *)
Lemma dropBlock_running rnd s s' :
  dropBlock rnd s = Some s' → gameOver s = false → gameOver s' = false →
  moveDelay s' = Z.max MIN_DELAY (moveDelay s - DELAY_STEP)
  ∧ blockRow s' = blockRow s + 1 ∧ blockMoving s' = true.
Proof.
  unfold dropBlock. cbn zeta.
  destruct (if (blockRow (set_blockMoving false s) =? 0) || _ then _ else _)
    as [[g placed]|]; [|done].
  simpl. destruct (negb placed && _); [by intros [= <-]|].
  destruct (blockRow s >=? stackHeight s); simpl.
  - destruct (blockRow s + 1 >=? HEIGHT); [by intros [= <-]|].
    simpl. destruct (print_row _ _); [|done]. by intros [= <-].
  - destruct (stackHeight s >=? HEIGHT); [by intros [= <-]|].
    simpl. destruct (print_row _ _); [|done]. by intros [= <-].
Qed.

Lemma game_step_delay s s' :
  game_step s s' →
  moveDelay s' = moveDelay s
  ∨ moveDelay s' = Z.max MIN_DELAY (moveDelay s - DELAY_STEP).
Proof.
  intros [rnd s1 s2 Hrun Hdrop Hrun'|t s1|s1 s2 Hdraw].
  - right. by eapply dropBlock_running.
  - left. simpl. apply moveBlock_frame.
  - left. by apply updateDisplay_inv in Hdraw as [m ->].
Qed.

(** C7: within one game (any sequence of drops that leave the game
    running, steps of the sweep and redraws, starting with moveDelay at or
    above the floor of 50), moveDelay never rises and never goes below 50;
    and each further successful drop sets it to max(50, moveDelay - 10):
    10 less while that stays at or above 50, the floor 50 otherwise. *)
Theorem moveDelay_never_rises s s' :
  MIN_DELAY ≤ moveDelay s → rtc game_step s s' →
  (50 ≤ moveDelay s' ≤ moveDelay s)
  ∧ ∀ rnd s'', gameOver s' = false → dropBlock rnd s' = Some s'' →
               gameOver s'' = false →
      moveDelay s'' = Z.max 50 (moveDelay s' - 10)
      ∧ (60 ≤ moveDelay s' → moveDelay s'' = moveDelay s' - 10)
      ∧ (moveDelay s' < 60 → moveDelay s'' = 50)
      ∧ 50 ≤ moveDelay s'' ≤ moveDelay s'.
Proof.
  intros Hfloor Hsteps.
  assert (50 ≤ moveDelay s' ≤ moveDelay s) as Hbound.
  { induction Hsteps as [s|s1 s2 s3 Hstep _ IH]; [consts; lia|].
    destruct (game_step_delay _ _ Hstep) as [Heq|Heq];
      rewrite Heq in IH; consts; lia. }
  split; [done|]. intros rnd s'' Hrun Hdrop Hrun'.
  destruct (dropBlock_running rnd s' s'' Hdrop Hrun Hrun') as (Heq & _).
  rewrite Heq. consts. lia.
Qed.

Lemma moveDelay_never_rises_witness :
  MIN_DELAY ≤ moveDelay one_row_state
  ∧ rtc game_step one_row_state
        (set_lastMove 0 (moveBlock one_row_state))
  ∧ ∃ s'', dropBlock 0 (set_lastMove 0 (moveBlock one_row_state)) = Some s''
      ∧ moveDelay s'' = 180.
Proof.
  assert (MIN_DELAY ≤ moveDelay one_row_state) as Hfloor by (by vm_compute).
  assert (rtc game_step one_row_state
            (set_lastMove 0 (moveBlock one_row_state))) as Hsteps.
  { apply rtc_once, step_move. }
  split; [done|]. split; [done|].
  destruct (moveDelay_never_rises _ _ Hfloor Hsteps) as [_ Hdrop].
  assert (∃ s'', dropBlock 0 (set_lastMove 0 (moveBlock one_row_state))
                   = Some s'' ∧ gameOver s'' = false) as (s'' & Hd & Hrun)
    by (eexists; split; by vm_compute).
  exists s''. split; [done|].
  destruct (Hdrop 0%N s'') as (_ & H60 & _); [done..|].
  rewrite H60; by vm_compute.
Defined.

(** ** Test mode *)

Lemma advanceTestRow_wraps s :
  0 ≤ testRow s < HEIGHT →
  testRow (advanceTestRow s) = (testRow s + 1) mod HEIGHT
  ∧ (testRow s = HEIGHT - 1 → testRow (advanceTestRow s) = 0)
  ∧ (testRow s < HEIGHT - 1 → testRow (advanceTestRow s) = testRow s + 1).
Proof.
  intros Hrow. simpl. rewrite Z.rem_mod_nonneg by (consts; lia).
  split; [done|]. split; intros H.
  - rewrite H. by vm_compute.
  - apply Z.mod_small. lia.
Qed.

(** In test mode a redraw does not read the array. *)
Ltac redraw_in_test :=
  match goal with
  | |- context [updateDisplay ?t] =>
      let m := fresh "m" in
      destruct (updateDisplay_spec t) as [m ->]; [by right|]
  end.

(** C8: the pass of [loop()] that enters test mode leaves the array,
    stackHeight and the block's position, row, direction and activity as
    they were; so does every pass made in test mode that does not leave
    it, and such a pass advances the cursor once for the byte 'n' and once
    for a confirmed press; an advance sets testRow to
    (testRow + 1) mod HEIGHT, which takes HEIGHT - 1 to 0; and the toggle
    byte received in test mode resets the game, with the postconditions of
    a reset. *)
Theorem test_mode_leaves_game_alone i s :
  (testMode s = false → serialIn i = Some "t"%char →
   ∃ s', loop i s = Some s' ∧ testMode s' = true
         ∧ same_grid s s' ∧ same_block s s')
  ∧ (testMode s = true → serialIn i ≠ Some "t"%char →
     ∃ s', loop i s = Some s' ∧ testMode s' = true
           ∧ same_grid s s' ∧ same_block s s'
           ∧ testRow s' =
               let s1 := if serial_is i "n" then advanceTestRow s else s in
               testRow (if pressed i then advanceTestRow s1 else s1))
  ∧ (0 ≤ testRow s < HEIGHT →
     testRow (advanceTestRow s) = (testRow s + 1) mod HEIGHT
     ∧ (testRow s = HEIGHT - 1 → testRow (advanceTestRow s) = 0))
  ∧ (testMode s = true → grid_wf (stack s) → serialIn i = Some "t"%char →
     ∃ s', serialPhase i s = Some s' ∧ fresh_game s').
Proof.
  split; [|split; [|split]].
  - intros Ht Hc. unfold loop, serialPhase. rewrite Hc. simpl. rewrite Ht.
    simpl. unfold testPhase.
    destruct (pressed i); simpl; try redraw_in_test; by eexists.
  - intros Ht Hc. unfold loop, serialPhase, serial_is.
    destruct (serialIn i) as [c|] eqn:Hin.
    + destruct (Ascii.eqb_spec c "t") as [Heq|_]; [by subst|].
      rewrite Ht. simpl. destruct (Ascii.eqb c "n"); simpl; redraw_in_test;
        simpl; rewrite Ht; unfold testPhase;
        (destruct (pressed i); try redraw_in_test; by eexists).
    + simpl. rewrite Ht. unfold testPhase.
      destruct (pressed i); try redraw_in_test; by eexists.
  - intros Hrow. destruct (advanceTestRow_wraps s Hrow) as (? & ? & _). done.
  - intros Ht Hwf Hc.
    by apply serialPhase_exit_fresh.
Qed.

Lemma test_mode_leaves_game_alone_witness :
  (testMode one_row_state = false
   ∧ ∃ s', loop (mkInput (Some "t"%char) false false 0 0 0 0) one_row_state
             = Some s'
           ∧ testMode s' = true
           ∧ same_grid one_row_state s' ∧ same_block one_row_state s')
  ∧ (testMode over_in_test_state = true
     ∧ 0 ≤ testRow over_in_test_state < HEIGHT
     ∧ grid_wf (stack over_in_test_state)
     ∧ (∃ s', loop (mkInput (Some "n"%char) true true 0 0 0 0)
                over_in_test_state = Some s'
              ∧ same_grid over_in_test_state s' ∧ testRow s' = 2)
     ∧ testRow (advanceTestRow over_in_test_state) = 1
     ∧ ∃ s', serialPhase (mkInput (Some "t"%char) false false 0 0 0 0)
               over_in_test_state = Some s' ∧ fresh_game s').
Proof.
  split.
  - split; [done|].
    destruct (test_mode_leaves_game_alone
                (mkInput (Some "t"%char) false false 0 0 0 0) one_row_state)
      as (Henter & _).
    destruct Henter as (s' & Hloop & Ht & Hg & Hb); [done..|].
    by exists s'.
  - assert (grid_wf (stack over_in_test_state)) as Hwf.
    { apply reachable_Inv.
      exists 0%N,
        [press 4; press 0; mkInput (Some "t"%char) false false 0 0 0 0].
      by vm_compute. }
    assert (0 ≤ testRow over_in_test_state < HEIGHT) as Hrow
      by (by vm_compute).
    split; [done|]. split; [done|]. split; [done|].
    destruct (test_mode_leaves_game_alone
                (mkInput (Some "n"%char) true true 0 0 0 0) over_in_test_state)
      as (_ & Hstay & Hwrap & _).
    destruct (test_mode_leaves_game_alone
                (mkInput (Some "t"%char) false false 0 0 0 0)
                over_in_test_state) as (_ & _ & _ & Hexit).
    split; [|split].
    + destruct Hstay as (s' & Hloop & _ & Hg & _ & Hcur); [done..|].
      exists s'. split; [done|]. split; [done|]. rewrite Hcur. by vm_compute.
    + destruct (Hwrap Hrow) as [-> _]. by vm_compute.
    + by apply Hexit.
Defined.

(** ** Safety of the array accesses *)

(** C9: with the array of its declared shape and 0 <= blockRow < HEIGHT,
    and for every value of blockPos, [dropBlock] and [updateDisplay] return
    without an access outside the array; a column of the block's span
    outside 0 .. WIDTH - 1 is skipped by both, nothing being read, written
    or drawn for it; when 0 <= blockPos <= WIDTH - BLOCK_WIDTH every column
    of the span passes the bounds check, so the skipping branch is not
    taken; and the sketch as a whole, from power-up and on any inputs,
    never accesses the array outside its bounds. *)
Theorem array_accesses_in_bounds s :
  grid_wf (stack s) → 0 ≤ blockRow s < HEIGHT →
  (∀ rnd, is_Some (dropBlock rnd s))
  ∧ is_Some (updateDisplay s)
  ∧ (∀ acc col, ¬ (0 ≤ col < WIDTH) →
                drop_column (blockRow s) acc col = Some acc)
  ∧ (∀ pts col, ¬ (0 ≤ col < WIDTH) →
                draw_block_col (blockRow s) pts col = pts)
  ∧ (0 ≤ blockPos s ≤ WIDTH - BLOCK_WIDTH →
     ∀ col, col ∈ for_range (blockPos s) (blockPos s + BLOCK_WIDTH) →
            (0 <=? col) && (col <? WIDTH) = true)
  ∧ (∀ rnd ins, is_Some (setup rnd ≫= run ins)).
Proof.
  intros Hwf Hrow. repeat split.
  - intros rnd.
    destruct (dropBlock_cases rnd s Hwf Hrow) as (g' & _ & _ & ->). by eexists.
  - destruct (updateDisplay_spec s) as [m ->]; [by left|by eexists].
  - intros acc col Hout. unfold drop_column.
    replace ((0 <=? col) && (col <? WIDTH)) with false; [done|].
    symmetry. apply andb_false_iff. zcmp; auto; lia.
  - intros pts col Hout. unfold draw_block_col.
    replace ((0 <=? col) && (col <? WIDTH)) with false; [done|].
    symmetry. apply andb_false_iff. zcmp; auto; lia.
  - intros Hpos col Hcol%elem_of_for_range.
    apply andb_true_iff. split; [apply Z.leb_le|apply Z.ltb_lt]; consts; lia.
  - intros rnd ins. destruct (run_defined rnd ins) as (s' & -> & _).
    by eexists.
Qed.

Lemma array_accesses_in_bounds_witness :
  grid_wf (stack one_row_state) ∧ 0 ≤ blockRow one_row_state < HEIGHT
  ∧ is_Some (dropBlock 3 (set_blockPos 6 one_row_state))
  ∧ is_Some (updateDisplay (set_blockPos (-2) one_row_state)).
Proof.
  assert (grid_wf (stack one_row_state)) as Hwf
    by apply reachable_Inv, one_row_state_reachable.
  assert (0 ≤ blockRow one_row_state < HEIGHT) as Hrow by (by vm_compute).
  split; [done|]. split; [done|].
  destruct (array_accesses_in_bounds (set_blockPos 6 one_row_state) Hwf Hrow)
    as (Hdrop & _).
  destruct (array_accesses_in_bounds (set_blockPos (-2) one_row_state)
              Hwf Hrow) as (_ & Hdraw & _).
  split; [apply Hdrop|exact Hdraw].
Defined.

(** ** The block rides on the stack *)

(** C10: in every state the sketch can reach, if the block is active and
    the game is not over then blockRow equals stackHeight, and blockRow is
    below HEIGHT; a reset makes both 0; and a drop made while the game is
    not over, if it leaves the game running, makes both the old row plus
    one and leaves the block active. *)
Theorem block_row_is_stack_height s :
  reachable s →
  (blockMoving s = true → gameOver s = false →
   blockRow s = stackHeight s ∧ blockRow s < HEIGHT)
  ∧ (∀ rnd, ∃ s', resetGame rnd s = Some s'
       ∧ blockRow s' = 0 ∧ stackHeight s' = 0
       ∧ blockMoving s' = true ∧ gameOver s' = false)
  ∧ (∀ rnd, gameOver s = false →
       ∃ s', dropBlock rnd s = Some s'
         ∧ (gameOver s' = false →
            blockMoving s' = true ∧ blockRow s' = blockRow s + 1
            ∧ stackHeight s' = blockRow s + 1)).
Proof.
  intros Hinv%reachable_Inv. split; [|split].
  - intros _ Hrun. destruct (inv_active s Hinv Hrun) as [_ Heq].
    pose proof (inv_row s Hinv). lia.
  - intros rnd.
    destruct (resetGame_spec rnd s (inv_wf s Hinv)) as [m ->]. by eexists.
  - intros rnd Hrun. destruct (inv_active s Hinv Hrun) as [_ Heq].
    destruct (dropBlock_cases rnd s (inv_wf s Hinv) (inv_row s Hinv))
      as (g' & _ & _ & ->).
    eexists. split; [done|].
    assert (raised_height s = blockRow s + 1) as ->.
    { unfold raised_height. zcmp; lia. }
    repeat case_decide; simpl; done.
Qed.

Lemma block_row_is_stack_height_witness :
  reachable one_row_state
  ∧ blockRow one_row_state = stackHeight one_row_state
  ∧ blockRow one_row_state < HEIGHT.
Proof.
  split; [apply one_row_state_reachable|].
  by apply (block_row_is_stack_height one_row_state one_row_state_reachable).
Defined.

(** * Further properties of the sketch *)

Lemma run_cons i ins s : run (i :: ins) s = loop i s ≫= run ins.
Proof. reflexivity. Qed.

Lemma bind_Some_eq {A B : Type} (f : A → option B) (a : A) :
  Some a ≫= f = f a.
Proof. reflexivity. Qed.


(** ** Induction over the reachable states *)

(** A property of the globals holds in every reachable state as soon as
    the statements of the sketch keep it: a redraw, a step of the sweep, an
    advance of the test cursor, the entry into test mode, a reset and a
    drop (which [loop()] only calls while the game is being played). *)
Section reachable_induction.
Variable P : State → Prop.
Hypothesis P_draw : ∀ s m, P s → P (set_matrix m s).
Hypothesis P_move :
  ∀ s c, Inv s → gameOver s = false → testMode s = false → P s →
         P (set_lastMove (to_ulong c) (moveBlock s)).
Hypothesis P_advance : ∀ s, testMode s = true → P s → P (advanceTestRow s).
Hypothesis P_enter :
  ∀ s, testMode s = false → P s → P (set_testRow 0 (set_testMode true s)).
Hypothesis P_reset :
  ∀ pos last m, 0 ≤ pos ≤ WIDTH - BLOCK_WIDTH →
    P (mkState pos 0 true empty_grid 0 false last INITIAL_DELAY true false 0 m).
Hypothesis P_drop :
  ∀ rnd s s', Inv s → gameOver s = false → testMode s = false → P s →
              dropBlock rnd s = Some s' → P s'.

Lemma P_updateDisplay s s' : P s → updateDisplay s = Some s' → P s'.
Proof. intros HP [m ->]%updateDisplay_inv. by apply P_draw. Qed.

Lemma P_resetGame rnd s s' :
  grid_wf (stack s) → resetGame rnd s = Some s' → P s'.
Proof.
  intros Hwf. destruct (resetGame_spec rnd s Hwf) as [m ->]. intros [= <-].
  apply P_reset, random_range_bounds.
Qed.

Lemma P_serialPhase i s s' : Inv s → P s → serialPhase i s = Some s' → P s'.
Proof.
  intros Hinv HP. unfold serialPhase. destruct (serialIn i) as [c|];
    [|by intros [= <-]].
  destruct (Ascii.eqb c "t").
  - cbn zeta. simpl. destruct (testMode s) eqn:Ht; simpl.
    + destruct (resetGame _ _) as [s1|] eqn:Hreset; [|done]. simpl.
      apply P_updateDisplay. eapply P_resetGame; [|done]. apply Hinv.
    + apply P_updateDisplay. by apply P_enter.
  - destruct (testMode s && Ascii.eqb c "n") eqn:Hn; simpl.
    + apply andb_true_iff in Hn as [Ht _].
      apply P_updateDisplay. by apply P_advance.
    + by apply P_updateDisplay.
Qed.

Lemma P_loop i s s' : Inv s → P s → loop i s = Some s' → P s'.
Proof.
  intros Hinv HP. unfold loop.
  destruct (serialPhase i s) as [s1|] eqn:Hs1; [|done]. simpl.
  assert (Inv s1) as Hinv1.
  { destruct (serialPhase_Inv i s Hinv) as (? & ? & ?). congruence. }
  pose proof (P_serialPhase i s s1 Hinv HP Hs1) as HP1.
  destruct (testMode s1) eqn:Ht1.
  { unfold testPhase. destruct (pressed i); [|by intros [= <-]].
    apply P_updateDisplay. by apply P_advance. }
  destruct (gameOver s1) eqn:Hover1.
  { unfold gameOverPhase.
    destruct (updateDisplay (set_matrix [] s1)) as [s2|] eqn:Hs2; [|done].
    simpl. destruct (pressed i); [|intros [= <-]].
    - apply P_resetGame. apply updateDisplay_inv in Hs2 as [m ->]. apply Hinv1.
    - eapply P_updateDisplay; [|done]. by apply P_draw. }
  destruct (motionPhase i s1) as [s2|] eqn:Hs2; [|done]. simpl.
  assert (Inv s2 ∧ gameOver s2 = false ∧ testMode s2 = false ∧ P s2)
    as (Hinv2 & Hover2 & Ht2 & HP2).
  { destruct (motionPhase_Inv i s1 Hinv1) as (s2' & Hs2' & Hinv2 & Hover2).
    assert (s2' = s2) as -> by congruence.
    split; [done|]. split; [congruence|].
    destruct (motionPhase_same_game i s1 s2 Hs2) as (_ & _ & _ & _ & _ & Ht2).
    split; [congruence|].
    destruct (motionPhase_spec i s1 (inv_wf s1 Hinv1)) as [Hsame|[m Hmoved]].
    - congruence.
    - rewrite Hmoved in Hs2. injection Hs2 as <-.
      apply P_draw. by apply P_move. }
  unfold buttonPhase. destruct (pressed i); [|by intros [= <-]].
  destruct (dropBlock (rndMain i) s2) as [s3|] eqn:Hs3; [|done]. simpl.
  apply P_updateDisplay. by eapply P_drop.
Qed.

Lemma P_run ins s s' : Inv s → P s → run ins s = Some s' → P s'.
Proof.
  revert s. induction ins as [|i ins IH]; intros s Hinv HP.
  - by intros [= <-].
  - rewrite run_cons.
    destruct (loop_Inv i s Hinv) as (s1 & Hloop & Hinv1). rewrite Hloop.
    rewrite bind_Some_eq. apply IH; [done|]. by apply (P_loop i s s1).
Qed.

Lemma P_setup rnd s : setup rnd = Some s → P s.
Proof. unfold setup. apply P_resetGame, empty_grid_wf. Qed.

Lemma reachable_invariant s : reachable s → P s.
Proof.
  intros (rnd & ins & Hrun).
  destruct (setup_Inv rnd) as (s0 & Hs0 & Hinv0). rewrite Hs0 in Hrun.
  rewrite bind_Some_eq in Hrun.
  apply (P_run ins s0 s Hinv0 (P_setup rnd s0 Hs0) Hrun).
Qed.
End reachable_induction.

(** ** What a drop does to the array and to the other globals *)

Lemma dropBlock_stack rnd s s' :
  Inv s → dropBlock rnd s = Some s' →
  grid_wf (stack s')
  ∧ ∀ r c, grid_get (stack s') r c =
           if decide (r = blockRow s ∧ placed_col s c) then Some 1
           else grid_get (stack s) r c.
Proof.
  intros Hinv Hdrop.
  destruct (dropBlock_cases rnd s (inv_wf s Hinv) (inv_row s Hinv))
    as (g' & Hwf' & Hget & Heq).
  rewrite Heq in Hdrop. injection Hdrop as <-.
  destruct (decide (survives s)) as [Hs|Hs].
  - cbn zeta. by case_decide.
  - simpl. split; [apply Hinv|]. intros r c.
    rewrite decide_False; [done|]. intros [_ Hc]. apply Hs. right. eauto.
Qed.

Lemma dropBlock_fields rnd s s' :
  Inv s → gameOver s = false → dropBlock rnd s = Some s' →
  testMode s' = testMode s ∧ testRow s' = testRow s
  ∧ lastMove s' = lastMove s ∧ moveRight s' = moveRight s
  ∧ ((gameOver s' = true ∧ blockMoving s' = false
      ∧ blockRow s' = blockRow s ∧ moveDelay s' = moveDelay s
      ∧ blockPos s' = blockPos s
      ∧ (¬ survives s ∧ stackHeight s' = stackHeight s
         ∨ survives s ∧ stackHeight s' = HEIGHT ∧ blockRow s = HEIGHT - 1))
     ∨ (gameOver s' = false ∧ blockMoving s' = true
        ∧ blockRow s' = blockRow s + 1 ∧ stackHeight s' = blockRow s + 1
        ∧ moveDelay s' = Z.max MIN_DELAY (moveDelay s - DELAY_STEP)
        ∧ blockPos s' = random_range rnd 0 (WIDTH - BLOCK_WIDTH + 1)
        ∧ survives s)).
Proof.
  intros Hinv Hrun Hdrop.
  destruct (inv_active s Hinv Hrun) as [_ Heq]. pose proof (inv_row s Hinv).
  destruct (dropBlock_cases rnd s (inv_wf s Hinv) (inv_row s Hinv))
    as (g' & _ & _ & Hcase).
  rewrite Hcase in Hdrop. injection Hdrop as <-. clear Hcase.
  assert (raised_height s = blockRow s + 1) as Hrh.
  { unfold raised_height. zcmp; lia. }
  destruct (decide (survives s)) as [Hs|Hs]; cbn zeta.
  - rewrite Hrh. case_decide; simpl.
    + do 4 (split; [done|]). left. do 5 (split; [done|]).
      right. split; [done|]. simpl. lia.
    + do 4 (split; [done|]). right. by rewrite Hrun.
  - simpl. do 4 (split; [done|]). left. do 5 (split; [done|]). by left.
Qed.

(** ** Invariants of the tower *)

Lemma reachable_tower_supported s : reachable s → tower_supported (stack s).
Proof.
  apply (reachable_invariant (λ s, tower_supported (stack s))); try done.
  - intros t c _ _ _ Ht. cbn beta.
    by replace (stack (set_lastMove (to_ulong c) (moveBlock t)))
      with (stack t) by (symmetry; apply moveBlock_frame).
  - intros pos last m _ r c Hocc. unfold occupied in Hocc. simpl in Hocc.
    pose proof (grid_get_inside _ _ _ _ Hocc) as [Hr Hc].
    rewrite empty_grid_get in Hocc by done. congruence.
  - intros rnd t t' Hinv Hrun _ Ht Hdrop.
    destruct (dropBlock_stack rnd t t' Hinv Hdrop) as [_ Hget].
    intros r c Hocc. unfold occupied in *. rewrite Hget in Hocc.
    destruct (decide (r = 0)) as [|Hr]; [by left|right].
    rewrite Hget.
    destruct (decide (r - 1 = blockRow t ∧ placed_col t c)) as [|_]; [done|].
    destruct (decide (r = blockRow t ∧ placed_col t c)) as [Hd|Hd].
    + destruct Hd as (-> & _ & _ & _ & [?|Hbelow]); [done|apply Hbelow].
    + by destruct (Ht r c Hocc).
Qed.

(** A supported tower has no hole under an occupied cell. *)
Lemma supported_down_to g r c (n : nat) :
  tower_supported g → occupied g r c → 0 ≤ r - Z.of_nat n →
  occupied g (r - Z.of_nat n) c.
Proof.
  intros Hsup Hocc. induction n as [|n IH]; intros Hn.
  - by replace (r - Z.of_nat 0) with r by lia.
  - destruct (Hsup (r - Z.of_nat n) c) as [H0|Hbelow]; [apply IH; lia|lia|].
    by replace (r - Z.of_nat (S n)) with (r - Z.of_nat n - 1) by lia.
Qed.

(** X1: in every state the sketch can reach, every occupied cell above
    row 0 has an occupied cell directly below it, so the whole column
    under an occupied cell is occupied down to row 0. *)
Theorem tower_is_supported s :
  reachable s →
  tower_supported (stack s)
  ∧ ∀ r c r', occupied (stack s) r c → 0 ≤ r' ≤ r → occupied (stack s) r' c.
Proof.
  intros Hsup%reachable_tower_supported. split; [done|].
  intros r c r' Hocc Hr'.
  replace r' with (r - Z.of_nat (Z.to_nat (r - r'))) by lia.
  apply supported_down_to; [done..|lia].
Qed.

Lemma tower_is_supported_witness :
  reachable two_row_state
  ∧ (occupied (stack two_row_state) 1 3 → occupied (stack two_row_state) 0 3).
Proof.
  assert (reachable two_row_state) as Hreach.
  { exists 2%N, [press 0; press 4]. by vm_compute. }
  split; [done|]. intros Hocc.
  destruct (tower_is_supported two_row_state Hreach) as [_ Hdown].
  apply (Hdown 1 3 0 Hocc). lia.
Defined.

(** ** Invariants of the other globals *)

(** X2: in every state the sketch can reach, moveDelay is determined by
    the row of the block: it is max(50, 200 - 10 * blockRow). *)
Theorem moveDelay_follows_row s :
  reachable s → moveDelay s = Z.max 50 (200 - 10 * blockRow s).
Proof.
  apply (reachable_invariant
           (λ s, moveDelay s = Z.max 50 (200 - 10 * blockRow s))); try done.
  - intros t c _ _ _ Ht. cbn beta. simpl.
    destruct (moveBlock_frame t) as (_ & _ & -> & _ & _ & -> & _). done.
  - intros rnd t t' Hinv Hrun _ Ht Hdrop. pose proof (inv_row t Hinv).
    destruct (dropBlock_fields rnd t t' Hinv Hrun Hdrop)
      as (_ & _ & _ & _ & [(_ & _ & -> & -> & _)|(_ & _ & -> & _ & -> & _)]);
      [done|]. consts. lia.
Qed.

Lemma moveDelay_follows_row_witness :
  reachable top_row_state ∧ moveDelay top_row_state = 50
  ∧ reachable two_row_state ∧ moveDelay two_row_state = 180.
Proof.
  assert (reachable two_row_state) as Hreach.
  { exists 2%N, [press 0; press 4]. by vm_compute. }
  split; [apply top_row_state_reachable|].
  split; [by rewrite (moveDelay_follows_row _ top_row_state_reachable)|].
  split; [done|]. by rewrite (moveDelay_follows_row _ Hreach).
Defined.

(** X3: in every state the sketch can reach, blockMoving is the negation
    of gameOver: the block is inactive exactly when the game is over. *)
Theorem block_active_iff_running s :
  reachable s → blockMoving s = negb (gameOver s).
Proof.
  apply (reachable_invariant (λ s, blockMoving s = negb (gameOver s)));
    try done.
  - intros t c _ _ _ Ht. cbn beta. simpl.
    destruct (moveBlock_frame t) as (_ & _ & _ & -> & _ & _ & -> & _). done.
  - intros rnd t t' Hinv Hrun _ Ht Hdrop.
    destruct (dropBlock_fields rnd t t' Hinv Hrun Hdrop)
      as (_ & _ & _ & _ & [(-> & -> & _)|(-> & -> & _)]); done.
Qed.

Lemma block_active_iff_running_witness :
  reachable gap_state ∧ blockMoving gap_state = negb (gameOver gap_state).
Proof.
  split; [apply gap_state_reachable|].
  apply (block_active_iff_running gap_state gap_state_reachable).
Defined.

(** X4: in every state the sketch can reach, the test cursor is 0 whenever
    the sketch is not in test mode. *)
Theorem cursor_rests_at_zero s :
  reachable s → testMode s = false → testRow s = 0.
Proof.
  apply (reachable_invariant (λ s, testMode s = false → testRow s = 0));
    try done.
  - intros t c _ _ _ Ht. cbn beta. simpl.
    destruct (moveBlock_frame t) as (_ & _ & _ & _ & -> & _ & _ & ->). done.
  - intros t Ht _. simpl. by rewrite Ht.
  - intros rnd t t' Hinv Hrun _ Ht Hdrop.
    destruct (dropBlock_fields rnd t t' Hinv Hrun Hdrop) as (-> & -> & _).
    done.
Qed.

Lemma cursor_rests_at_zero_witness :
  reachable two_row_state ∧ testMode two_row_state = false
  ∧ testRow two_row_state = 0.
Proof.
  assert (reachable two_row_state) as Hreach.
  { exists 2%N, [press 0; press 4]. by vm_compute. }
  split; [done|]. split; [done|].
  by apply (cursor_rests_at_zero two_row_state Hreach).
Defined.

(** ** First and last row *)

(** X5: a drop made while the game is not over with the block on the last
    row, HEIGHT - 1, always ends the game: either it misses, or it is
    placed and the stack reaches HEIGHT. *)
Theorem last_row_drop_ends_game rnd s :
  Inv s → gameOver s = false → blockRow s = HEIGHT - 1 →
  ∃ s', dropBlock rnd s = Some s' ∧ gameOver s' = true
        ∧ blockRow s' = HEIGHT - 1
        ∧ (survives s → stackHeight s' = HEIGHT)
        ∧ (¬ survives s → stackHeight s' = HEIGHT - 1 ∧ stack s' = stack s).
Proof.
  intros Hinv Hrun Hlast.
  destruct (dropBlock_Inv rnd s Hinv Hrun) as (s' & Hdrop & _).
  exists s'. split; [done|].
  destruct (inv_active s Hinv Hrun) as [_ Heq].
  destruct (dropBlock_fields rnd s s' Hinv Hrun Hdrop)
    as (_ & _ & _ & _ & [(Hover & _ & Hrow & _ & _ & Hcase)|Hadv]).
  - split; [done|]. split; [lia|].
    destruct Hcase as [[Hs Hh]|(Hs & Hh & _)].
    + split; [done|]. intros _. split; [lia|].
      destruct (dropBlock_stack rnd s s' Hinv Hdrop) as [Hwf' Hget].
      apply grid_ext; [done|apply Hinv|]. intros r c. rewrite Hget.
      rewrite decide_False; [done|]. intros [_ Hc]. apply Hs. right. eauto.
    + split; [done|]. done.
  - destruct Hadv as (_ & _ & Hrow' & _).
    destruct (dropBlock_Inv rnd s Hinv Hrun) as (s2 & Hdrop2 & Hinv2).
    assert (s2 = s') as -> by congruence.
    pose proof (inv_row s' Hinv2). lia.
Qed.

Lemma last_row_drop_ends_game_witness :
  Inv top_row_state ∧ gameOver top_row_state = false
  ∧ blockRow top_row_state = HEIGHT - 1
  ∧ ∃ s', dropBlock 3 top_row_state = Some s' ∧ gameOver s' = true.
Proof.
  assert (Inv top_row_state) as Hinv
    by apply reachable_Inv, top_row_state_reachable.
  split; [done|]. split; [done|]. split; [done|].
  destruct (last_row_drop_ends_game 3 top_row_state Hinv)
    as (s' & Hdrop & Hover & _); [done..|].
  by exists s'.
Defined.

(** The first drop of a game, in full. *)
Lemma first_drop_effect rnd s s' :
  Inv s → gameOver s = false → blockRow s = 0 → dropBlock rnd s = Some s' →
  (∀ r c, occupied (stack s') r c ↔ r = 0 ∧ in_span s c)
  ∧ stackHeight s' = 1 ∧ blockRow s' = 1
  ∧ gameOver s' = false ∧ blockMoving s' = true
  ∧ moveDelay s' = Z.max 50 (moveDelay s - 10)
  ∧ testMode s' = testMode s.
Proof.
  intros Hinv Hrun Hrow Hdrop.
  destruct (inv_active s Hinv Hrun) as [_ Heq].
  destruct (dropBlock_stack rnd s s' Hinv Hdrop) as [_ Hget].
  pose proof (inv_pos s Hinv) as Hpos.
  assert (∀ r c, ¬ occupied (stack s) r c) as Hempty.
  { destruct (Inv_watermark s Hinv) as [[_ H]|[? _]]; [done|lia]. }
  assert (∀ c, placed_col s c ↔ in_span s c) as Hplaced.
  { intros c. unfold placed_col, lands, in_span. consts. split; [tauto|lia]. }
  split.
  - intros r c. unfold occupied. rewrite Hget, Hrow. case_decide as Hd.
    + split; [intros _|done]. destruct Hd as [-> Hc]. by apply Hplaced in Hc.
    + split; [intros Hocc; by destruct (Hempty r c)|].
      intros [-> Hc]. destruct Hd. split; [done|by apply Hplaced].
  - destruct (dropBlock_fields rnd s s' Hinv Hrun Hdrop)
      as (Ht & _ & _ & _ & [(_ & _ & _ & _ & _ & Hcase)|Hadv]).
    + exfalso. destruct Hcase as [[Hs _]|(_ & _ & Hl)].
      * apply Hs. by left.
      * consts. lia.
    + destruct Hadv as (-> & -> & -> & -> & -> & _). rewrite Hrow. done.
Qed.

(** X6: a drop made while the game is not over with the block on row 0
    never misses: exactly the BLOCK_WIDTH cells of row 0 under the block
    become occupied, stackHeight becomes 1, the game goes on with the block
    active on row 1, and moveDelay drops from its value by 10 (not below
    50). *)
Theorem first_drop_always_lands rnd s :
  Inv s → gameOver s = false → blockRow s = 0 →
  ∃ s', dropBlock rnd s = Some s'
    ∧ (∀ c, occupied (stack s') 0 c ↔ in_span s c)
    ∧ (∀ r c, r ≠ 0 → ¬ occupied (stack s') r c)
    ∧ stackHeight s' = 1 ∧ blockRow s' = 1
    ∧ gameOver s' = false ∧ blockMoving s' = true
    ∧ moveDelay s' = Z.max 50 (moveDelay s - 10).
Proof.
  intros Hinv Hrun Hrow.
  destruct (dropBlock_Inv rnd s Hinv Hrun) as (s' & Hdrop & _).
  exists s'. split; [done|].
  destruct (first_drop_effect rnd s s' Hinv Hrun Hrow Hdrop)
    as (Hcells & Hh & Hr & Hover & Hmov & Hdelay & _).
  split; [|split; [|done]].
  - intros c. rewrite Hcells. tauto.
  - intros r c Hne [? _]%Hcells. done.
Qed.

Lemma first_drop_always_lands_witness :
  Inv fresh_state ∧ gameOver fresh_state = false ∧ blockRow fresh_state = 0
  ∧ ∃ s', dropBlock 1 fresh_state = Some s' ∧ stackHeight s' = 1
          ∧ occupied (stack s') 0 3 ∧ occupied (stack s') 0 6.
Proof.
  assert (Inv fresh_state) as Hinv.
  { apply reachable_Inv. exists 3%N, []. by vm_compute. }
  do 3 (split; [done|]).
  destruct (first_drop_always_lands 1 fresh_state Hinv)
    as (s' & Hdrop & Hocc & _ & Hh & _); [done..|].
  exists s'. split; [done|]. split; [done|].
  split; apply Hocc; by vm_compute.
Defined.

(** ** The frame drawn by [updateDisplay] *)

Lemma mapPoint_eq row col x y : (x, y) = mapPoint row col ↔ x = col ∧ y = row.
Proof.
  unfold mapPoint, ROTATE_DISPLAY. split; [by intros [= -> ->]|by intros [-> ->]].
Qed.

Lemma cell_on_inside g row col :
  cell_on g row col → 0 ≤ row < HEIGHT ∧ 0 ≤ col < WIDTH.
Proof. intros (v & Hv & _). by eapply grid_get_inside. Qed.

(** The inner loop of the stack drawing adds the lit cells of one row. *)
Lemma draw_row_spec g row pts0 :
  grid_wf g → 0 ≤ row < HEIGHT →
  ∃ pts, foldM (draw_cell g row) pts0 (for_range 0 WIDTH) = Some pts
    ∧ ∀ pt, pt ∈ pts ↔
            pt ∈ pts0 ∨ ∃ col, cell_on g row col ∧ pt = mapPoint row col.
Proof.
  intros Hwf Hrow.
  destruct (foldM_invariant (draw_cell g row)
    (λ pre pts, ∀ pt, pt ∈ pts ↔
       pt ∈ pts0 ∨ ∃ col, col ∈ pre ∧ cell_on g row col ∧ pt = mapPoint row col)
    (for_range 0 WIDTH) pts0) as (pts & Hrun & Hpts).
  - intros pt. split; [by left|]. intros [?|(col & Hcol & _)]; [done|].
    by apply elem_of_nil in Hcol.
  - intros pre x pts Hinv Hx. apply elem_of_for_range in Hx.
    unfold draw_cell.
    destruct (grid_get_defined g row x Hwf Hrow Hx) as [v Hv]. rewrite Hv.
    simpl. eexists. split; [done|]. intros pt.
    destruct (Z.eqb_spec v 0) as [->|Hv0].
    + rewrite Hinv. split; intros [?|(col & Hcol & Hon & Hpt)]; try by left.
      * right. exists col. rewrite elem_of_app. tauto.
      * right. exists col. apply elem_of_app in Hcol as [?|Hcol]; [done|].
        apply list_elem_of_singleton in Hcol as ->.
        destruct Hon as (v & Hv' & Hne). congruence.
    + rewrite elem_of_app, list_elem_of_singleton, Hinv.
      split.
      * intros [[?|(col & Hcol & Hon & Hpt)]| ->]; [by left|right..].
        -- exists col. rewrite elem_of_app. tauto.
        -- exists x. rewrite elem_of_app, list_elem_of_singleton.
           split; [tauto|]. split; [by exists v|done].
      * intros [?|(col & Hcol & Hon & Hpt)]; [by left; left|].
        apply elem_of_app in Hcol as [?|Hcol]; [left; right; eauto|].
        apply list_elem_of_singleton in Hcol as ->. by right.
  - exists pts. split; [done|]. intros pt. rewrite Hpts.
    split; intros [?|(col & H)]; try by left.
    + right. exists col. tauto.
    + right. exists col. destruct H as [Hon Hpt]. split; [|done].
      apply elem_of_for_range. by apply cell_on_inside in Hon as [_ ?].
Qed.

(** The two loops of the stack drawing light the cells that are not 0. *)
Lemma draw_stack_spec g :
  grid_wf g →
  ∃ pts, draw_stack g = Some pts
    ∧ ∀ pt, pt ∈ pts ↔ ∃ row col, cell_on g row col ∧ pt = mapPoint row col.
Proof.
  intros Hwf. unfold draw_stack.
  destruct (foldM_invariant
    (λ pts row, foldM (draw_cell g row) pts (for_range 0 WIDTH))
    (λ pre pts, ∀ pt, pt ∈ pts ↔
       ∃ row col, row ∈ pre ∧ cell_on g row col ∧ pt = mapPoint row col)
    (for_range 0 HEIGHT) []) as (pts & Hrun & Hpts).
  - intros pt. split; [by intros ?%elem_of_nil|].
    intros (row & col & Hrow & _). by apply elem_of_nil in Hrow.
  - intros pre x pts Hinv Hx. apply elem_of_for_range in Hx.
    destruct (draw_row_spec g x pts Hwf Hx) as (pts' & -> & Hpts').
    exists pts'. split; [done|]. intros pt. rewrite Hpts', Hinv. split.
    + intros [(row & col & Hrow & H)|(col & H)].
      * exists row, col. rewrite elem_of_app. tauto.
      * exists x, col. rewrite elem_of_app, list_elem_of_singleton. tauto.
    + intros (row & col & Hrow & H).
      apply elem_of_app in Hrow as [?|Hrow]; [left; eauto|].
      apply list_elem_of_singleton in Hrow as ->. right. eauto.
  - exists pts. split; [done|]. intros pt. rewrite Hpts.
    split; intros (row & col & H); exists row, col; [tauto|].
    destruct H as [Hon Hpt]. split; [|done].
    apply elem_of_for_range. by apply cell_on_inside in Hon as [? _].
Qed.

Lemma draw_block_spec row l pts0 pt :
  pt ∈ foldl (draw_block_col row) pts0 l ↔
  pt ∈ pts0 ∨ ∃ col, col ∈ l ∧ 0 ≤ col < WIDTH ∧ pt = mapPoint row col.
Proof.
  revert pts0. induction l as [|x l IH]; intros pts0; simpl.
  - split; [by left|]. intros [?|(col & Hcol & _)]; [done|].
    by apply elem_of_nil in Hcol.
  - rewrite IH. unfold draw_block_col.
    destruct ((0 <=? x) && (x <? WIDTH)) eqn:Hx.
    + apply andb_true_iff in Hx as [Hx1%Z.leb_le Hx2%Z.ltb_lt].
      rewrite elem_of_app, list_elem_of_singleton. split.
      * intros [[?| ->]|(col & Hcol & H)]; [by left|right..].
        -- exists x. split; [by left|done].
        -- exists col. split; [by right|done].
      * intros [?|(col & Hcol & H)]; [by left; left|].
        apply elem_of_cons in Hcol as [->|Hcol]; [left; right; tauto|].
        right. eauto.
    + split.
      * intros [?|(col & Hcol & H)]; [by left|right].
        exists col. split; [by right|done].
      * intros [?|(col & Hcol & H)]; [by left|].
        apply elem_of_cons in Hcol as [->|Hcol]; [|right; eauto].
        apply andb_false_iff in Hx as [Hx%Z.leb_gt|Hx%Z.ltb_ge]; lia.
Qed.

Lemma draw_test_spec row l pts0 pt :
  pt ∈ foldl (λ pts col, pts ++ [mapPoint row col]) pts0 l ↔
  pt ∈ pts0 ∨ ∃ col, col ∈ l ∧ pt = mapPoint row col.
Proof.
  revert pts0. induction l as [|x l IH]; intros pts0; simpl.
  - split; [by left|]. intros [?|(col & Hcol & _)]; [done|].
    by apply elem_of_nil in Hcol.
  - rewrite IH, elem_of_app, list_elem_of_singleton. split.
    + intros [[?| ->]|(col & Hcol & H)]; [by left|right..].
      * exists x. split; [by left|done].
      * exists col. split; [by right|done].
    + intros [?|(col & Hcol & H)]; [by left; left|].
      apply elem_of_cons in Hcol as [->|Hcol]; [by left; right|].
      right. eauto.
Qed.

(** The lit points after a redraw. *)
Lemma updateDisplay_frame s :
  grid_wf (stack s) ∨ testMode s = true →
  ∃ m, updateDisplay s = Some (set_matrix m s)
    ∧ ∀ x y, (x, y) ∈ m ↔
        if testMode s then y = testRow s ∧ 0 ≤ x < WIDTH
        else cell_on (stack s) y x ∨ block_shown s x y.
Proof.
  intros Hwf. unfold updateDisplay. destruct (testMode s) eqn:Ht.
  - eexists. split; [done|]. intros x y. rewrite draw_test_spec.
    setoid_rewrite elem_of_for_range. setoid_rewrite mapPoint_eq. split.
    + intros [?%elem_of_nil|(col & Hcol & -> & ->)]; [done|]. lia.
    + intros [-> Hx]. right. exists x. lia.
  - destruct Hwf as [Hwf|?]; [|done].
    destruct (draw_stack_spec (stack s) Hwf) as (pts & -> & Hpts). simpl.
    eexists. split; [done|]. intros x y. unfold block_shown, in_span.
    assert ((x, y) ∈ pts ↔ cell_on (stack s) y x) as Hstack.
    { rewrite Hpts. setoid_rewrite mapPoint_eq. split.
      - by intros (row & col & Hon & -> & ->).
      - intros Hon. by exists y, x. }
    destruct (gameOver s), (blockMoving s); simpl; rewrite ?draw_block_spec,
      Hstack; try (split; [by left|by intros [?|(? & ? & _)]]).
    setoid_rewrite mapPoint_eq. setoid_rewrite elem_of_for_range. split.
    + intros [?|(col & ? & ? & -> & ->)]; [by left|right; repeat split; lia].
    + intros [?|(_ & _ & -> & ? & ?)]; [by left|right].
      exists x. repeat split; lia.
Qed.

Lemma updateDisplay_idem s s' :
  updateDisplay s = Some s' → updateDisplay s' = Some s'.
Proof.
  unfold updateDisplay at 1. destruct (testMode s) eqn:Ht.
  - intros [= <-]. unfold updateDisplay. simpl. by rewrite Ht.
  - destruct (draw_stack (stack s)) as [pts|] eqn:Hpts; [|done]. simpl.
    intros [= <-]. unfold updateDisplay. simpl. rewrite Ht, Hpts. done.
Qed.

(** X7: [updateDisplay] changes nothing but the display, and the points
    it lights are, in test mode, the WIDTH points of the cursor row
    whatever the array and the block are, and otherwise the cells of the
    array that are not 0 together with, when the game is not over and the
    block is active, the columns of the block that lie on the array, each
    cell (row, col) lit as the point (col, row); drawing again gives the
    same display. *)
Theorem display_shows_stack_and_block s :
  grid_wf (stack s) →
  ∃ s', updateDisplay s = Some s'
    ∧ s' = set_matrix (matrix s') s
    ∧ (∀ x y, (x, y) ∈ matrix s' ↔
         if testMode s then y = testRow s ∧ 0 ≤ x < WIDTH
         else cell_on (stack s) y x ∨ block_shown s x y)
    ∧ updateDisplay s' = Some s'.
Proof.
  intros Hwf. destruct (updateDisplay_frame s) as (m & Hs' & Hm); [by left|].
  eexists. split; [done|]. split; [done|]. split; [done|].
  by apply (updateDisplay_idem s).
Qed.

Lemma display_shows_stack_and_block_witness :
  grid_wf (stack two_row_state)
  ∧ ∃ s', updateDisplay two_row_state = Some s'
      ∧ (3, 1) ∈ matrix s' ∧ (7, 2) ∈ matrix s' ∧ (4, 1) ∉ matrix s'.
Proof.
  assert (grid_wf (stack two_row_state)) as Hwf.
  { apply reachable_Inv. exists 2%N, [press 0; press 4]. by vm_compute. }
  split; [done|].
  destruct (display_shows_stack_and_block two_row_state Hwf)
    as (s' & Hs' & _ & Hlit & _).
  exists s'. split; [exact Hs'|]. clear Hs'. split; [|split].
  - apply Hlit. left. exists 1. vm_compute. split; [reflexivity|lia].
  - apply Hlit. right. unfold block_shown, in_span. vm_compute.
    repeat split; discriminate.
  - intros [(v & Hv & Hne)|(_ & _ & Hrow & _)]%Hlit.
    + vm_compute in Hv. congruence.
    + vm_compute in Hrow. lia.
Defined.

(** ** The display is never stale *)

Lemma resetGame_displayed rnd s s' : resetGame rnd s = Some s' → displayed s'.
Proof.
  unfold resetGame. destruct (clear_stack (stack s)); [|done]. simpl.
  apply updateDisplay_idem.
Qed.

Lemma loop_displayed i s s' : displayed s → loop i s = Some s' → displayed s'.
Proof.
  intros Hs. unfold loop.
  destruct (serialPhase i s) as [s1|] eqn:Hs1; [|done]. simpl.
  assert (displayed s1) as Hd1.
  { unfold serialPhase in Hs1. destruct (serialIn i); [|congruence].
    apply bind_Some in Hs1 as (t & _ & Hu). by apply (updateDisplay_idem t). }
  destruct (testMode s1).
  { unfold testPhase. destruct (pressed i); [|congruence].
    apply updateDisplay_idem. }
  destruct (gameOver s1).
  { unfold gameOverPhase.
    destruct (updateDisplay (set_matrix [] s1)) as [s2|] eqn:Hs2; [|done].
    simpl. destruct (pressed i); [apply resetGame_displayed|].
    intros [= <-]. by apply (updateDisplay_idem (set_matrix [] s1)). }
  destruct (motionPhase i s1) as [s2|] eqn:Hs2; [|done]. simpl.
  assert (displayed s2) as Hd2.
  { unfold motionPhase in Hs2. destruct (blockMoving s1 && _); [|congruence].
    by eapply updateDisplay_idem. }
  unfold buttonPhase. destruct (pressed i); [|congruence].
  destruct (dropBlock (rndMain i) s2) as [s3|]; [|done]. simpl.
  apply updateDisplay_idem.
Qed.

Lemma run_displayed ins s s' : displayed s → run ins s = Some s' → displayed s'.
Proof.
  revert s. induction ins as [|i ins IH]; intros s Hd.
  - by intros [= <-].
  - rewrite run_cons. intros (s1 & Hloop & Hrun)%bind_Some.
    apply (IH s1); [|exact Hrun]. exact (loop_displayed i s s1 Hd Hloop).
Qed.

Lemma setup_displayed rnd s : setup rnd = Some s → displayed s.
Proof. unfold setup. apply resetGame_displayed. Qed.

Lemma reachable_displayed s : reachable s → displayed s.
Proof.
  intros (rnd & ins & (s0 & Hs0 & Hrun)%bind_Some).
  exact (run_displayed ins s0 s (setup_displayed rnd s0 Hs0) Hrun).
Qed.

Lemma reachable_frame s :
  reachable s →
  ∀ x y, (x, y) ∈ matrix s ↔
    if testMode s then y = testRow s ∧ 0 ≤ x < WIDTH
    else cell_on (stack s) y x ∨ block_shown s x y.
Proof.
  intros Hreach. pose proof (reachable_displayed s Hreach) as Hd.
  pose proof (reachable_Inv s Hreach) as Hinv.
  destruct (updateDisplay_frame s) as (m & Hs' & Hm); [left; apply Hinv|].
  unfold displayed in Hd. rewrite Hs' in Hd.
  assert (m = matrix s) as ->; [|done].
  change m with (matrix (set_matrix m s)). congruence.
Qed.

(** X8: at the end of [setup()] and of every pass of [loop()] the display
    shows the frame of the current globals: drawing again would change
    nothing.  Outside test mode the lit points are exactly the occupied
    cells and the columns of the active block, cell (row, col) at the
    point (col, row); in test mode they are the WIDTH points of the cursor
    row. *)
Theorem display_is_current s :
  reachable s →
  updateDisplay s = Some s
  ∧ ∀ x y, (x, y) ∈ matrix s ↔
      if testMode s then y = testRow s ∧ 0 ≤ x < WIDTH
      else occupied (stack s) y x ∨ block_shown s x y.
Proof.
  intros Hreach. split; [by apply reachable_displayed|].
  intros x y. rewrite (reachable_frame s Hreach).
  destruct (testMode s); [done|].
  assert (cell_on (stack s) y x ↔ occupied (stack s) y x) as ->; [|done].
  unfold cell_on, occupied. split.
  - intros (v & Hv & Hne).
    destruct (inv_cells s (reachable_Inv s Hreach) y x v Hv); by subst.
  - intros Hocc. by exists 1.
Qed.

Lemma display_is_current_witness :
  reachable two_row_state
  ∧ updateDisplay two_row_state = Some two_row_state
  ∧ ((2, 0) ∈ matrix two_row_state ↔
     occupied (stack two_row_state) 0 2 ∨ block_shown two_row_state 2 0).
Proof.
  assert (reachable two_row_state) as Hreach.
  { exists 2%N, [press 0; press 4]. by vm_compute. }
  split; [done|].
  destruct (display_is_current two_row_state Hreach) as [Hcur Hlit].
  split; [done|]. apply (Hlit 2 0).
Defined.

(** X9: in every state the sketch can reach, every lit point (x, y) of
    the display lies on the panel: 0 <= x < WIDTH and 0 <= y < HEIGHT. *)
Theorem lit_points_on_panel s x y :
  reachable s → (x, y) ∈ matrix s → 0 ≤ x < WIDTH ∧ 0 ≤ y < HEIGHT.
Proof.
  intros Hreach Hlit. pose proof (reachable_Inv s Hreach) as Hinv.
  apply (reachable_frame s Hreach) in Hlit.
  destruct (testMode s).
  - destruct Hlit as [-> Hx]. split; [done|apply Hinv].
  - destruct Hlit as [Hon|(_ & _ & -> & _ & Hx)].
    + apply cell_on_inside in Hon. tauto.
    + split; [done|apply Hinv].
Qed.

Lemma lit_points_on_panel_witness :
  reachable two_row_state ∧ (5, 0) ∈ matrix two_row_state
  ∧ 0 ≤ 5 < WIDTH ∧ 0 ≤ 0 < HEIGHT.
Proof.
  assert (reachable two_row_state) as Hreach.
  { exists 2%N, [press 0; press 4]. by vm_compute. }
  assert ((5, 0) ∈ matrix two_row_state) as Hlit.
  { apply list_elem_of_In. vm_compute. tauto. }
  split; [done|]. split; [done|].
  apply (lit_points_on_panel two_row_state 5 0 Hreach Hlit).
Defined.

Lemma updateDisplay_set_matrix m s s' :
  updateDisplay s = Some s' → updateDisplay (set_matrix m s) = Some s'.
Proof.
  unfold updateDisplay. simpl. destruct (testMode s); [by intros [= <-]|].
  destruct (draw_stack (stack s)); [|done]. simpl. by intros [= <-].
Qed.

(** ** Passes of [loop()] *)

(** X10: while the game is over (and the sketch is not in test mode, no
    byte on the serial line), a pass of [loop()] without a confirmed press
    ends, after the flash, with every global and the display as they were,
    whatever the clock reads: the block neither moves nor drops; a pass
    with a confirmed press resets the game. *)
Theorem game_over_waits_for_press i s :
  reachable s → gameOver s = true → testMode s = false → serialIn i = None →
  (pressed i = false → loop i s = Some s)
  ∧ (pressed i = true → ∃ s', loop i s = Some s' ∧ fresh_game s').
Proof.
  intros Hreach Hover Ht Hser.
  pose proof (reachable_displayed s Hreach) as Hd.
  pose proof (updateDisplay_set_matrix [] s s Hd) as Hflash.
  unfold loop, serialPhase. rewrite Hser. simpl. rewrite Ht, Hover.
  unfold gameOverPhase. rewrite Hflash. simpl.
  split; intros ->; [done|].
  apply resetGame_fresh, (reachable_Inv s Hreach).
Qed.

Lemma game_over_waits_for_press_witness :
  ∃ s, reachable s ∧ gameOver s = true ∧ testMode s = false
    ∧ loop (mkInput None true false 5000 5000 0 0) s = Some s
    ∧ ∃ s', loop (press 2) s = Some s' ∧ fresh_game s'.
Proof.
  pose (s := state_after 0 [press 4; press 0]).
  assert (reachable s) as Hreach by (exists 0%N, [press 4; press 0]; by vm_compute).
  assert (gameOver s = true) as Hover by (by vm_compute).
  assert (testMode s = false) as Ht by (by vm_compute).
  exists s. do 3 (split; [done|]).
  destruct (game_over_waits_for_press (mkInput None true false 5000 5000 0 0)
              s Hreach Hover Ht eq_refl) as [Hwait _].
  destruct (game_over_waits_for_press (press 2) s Hreach Hover Ht eq_refl)
    as [_ Hrestart].
  split; [apply Hwait; reflexivity|apply Hrestart; reflexivity].
Defined.

(** X11: a byte on the serial line other than 't' (and other than 'n'
    while in test mode) has no effect at all: the pass of [loop()] ends in
    the same state as the pass without the byte. *)
Theorem other_bytes_are_ignored i s c :
  reachable s → serialIn i = Some c → c ≠ "t"%char →
  testMode s = false ∨ c ≠ "n"%char →
  serialPhase i s = Some s
  ∧ loop i s =
    loop (mkInput None (buttonLow i) (buttonStillLow i) (clockTest i)
            (clockStore i) (rndSerial i) (rndMain i)) s.
Proof.
  intros Hreach Hser Hnt Hnn.
  assert (serialPhase i s = Some s) as Hphase.
  { unfold serialPhase. rewrite Hser.
    destruct (Ascii.eqb_spec c "t") as [|_]; [done|].
    replace (testMode s && Ascii.eqb c "n") with false.
    - simpl. apply (reachable_displayed s Hreach).
    - symmetry. apply andb_false_iff.
      destruct Hnn as [->|Hn]; [by left|right]. by apply Ascii.eqb_neq. }
  split; [done|]. unfold loop. rewrite Hphase. done.
Qed.

Lemma other_bytes_are_ignored_witness :
  reachable two_row_state
  ∧ loop (mkInput (Some "n"%char) true true 0 0 0 3) two_row_state
    = loop (press 3) two_row_state.
Proof.
  assert (reachable two_row_state) as Hreach.
  { exists 2%N, [press 0; press 4]. by vm_compute. }
  split; [done|].
  refine (proj2 (other_bytes_are_ignored
                   (mkInput (Some "n"%char) true true 0 0 0 3)
                   two_row_state "n"%char Hreach eq_refl _ _)).
  - discriminate.
  - by left.
Defined.

Lemma serialPhase_enter i s :
  testMode s = false → serialIn i = Some "t"%char →
  serialPhase i s = updateDisplay (set_testRow 0 (set_testMode true s)).
Proof.
  intros Ht Hser. unfold serialPhase. rewrite Hser.
  change (Ascii.eqb "t" "t") with true. cbv beta iota zeta.
  change (testMode (set_testMode (negb (testMode s)) s))
    with (negb (testMode s)).
  rewrite Ht. reflexivity.
Qed.

(** X12: the pass of [loop()] that enters test mode puts the cursor on
    row 0, or on row 1 when a press is confirmed in the same pass, and
    ends with exactly the WIDTH points of the cursor row lit. *)
Theorem test_mode_starts_at_row_zero i s :
  testMode s = false → serialIn i = Some "t"%char →
  ∃ s', loop i s = Some s' ∧ testMode s' = true
    ∧ testRow s' = (if pressed i then 1 else 0)
    ∧ ∀ x y, (x, y) ∈ matrix s' ↔ y = testRow s' ∧ 0 ≤ x < WIDTH.
Proof.
  intros Ht Hser. unfold loop. rewrite (serialPhase_enter i s Ht Hser).
  destruct (updateDisplay_frame (set_testRow 0 (set_testMode true s)))
    as (m & -> & Hm); [by right|].
  rewrite bind_Some_eq.
  change (testMode (set_matrix m (set_testRow 0 (set_testMode true s))))
    with true.
  cbv iota. unfold testPhase. destruct (pressed i).
  - destruct (updateDisplay_frame
                (advanceTestRow (set_matrix m (set_testRow 0 (set_testMode true s)))))
      as (m' & -> & Hm'); [by right|].
    eexists. split; [done|]. split; [done|]. split; [done|]. apply Hm'.
  - eexists. split; [done|]. split; [done|]. split; [done|]. apply Hm.
Qed.

Lemma test_mode_starts_at_row_zero_witness :
  testMode two_row_state = false
  ∧ ∃ s', loop (mkInput (Some "t"%char) true true 0 0 0 0) two_row_state
            = Some s'
      ∧ testRow s' = 1 ∧ (6, 1) ∈ matrix s'.
Proof.
  split; [done|].
  destruct (test_mode_starts_at_row_zero
              (mkInput (Some "t"%char) true true 0 0 0 0) two_row_state)
    as (s' & Hloop & _ & Hrow & Hlit); [done..|].
  exists s'. split; [exact Hloop|]. clear Hloop. split; [exact Hrow|].
  apply Hlit. rewrite Hrow. vm_compute. repeat split; discriminate.
Defined.

(** X13: when the byte 't' arrives in test mode and a press is confirmed
    in the same pass of [loop()], the pass resets the game and at once
    drops the first block: it ends with the game being played, the block on
    row 1, stackHeight 1, moveDelay 190, and exactly BLOCK_WIDTH
    consecutive cells of row 0 occupied. *)
Theorem leaving_test_mode_with_press_drops i s :
  reachable s → testMode s = true → serialIn i = Some "t"%char →
  pressed i = true →
  ∃ s', loop i s = Some s' ∧ playing s'
    ∧ blockRow s' = 1 ∧ stackHeight s' = 1 ∧ moveDelay s' = 190
    ∧ ∃ p, 0 ≤ p ≤ WIDTH - BLOCK_WIDTH
        ∧ ∀ r c, occupied (stack s') r c ↔ r = 0 ∧ p ≤ c < p + BLOCK_WIDTH.
Proof.
  intros Hinv%reachable_Inv Ht Hser Hp.
  destruct (serialPhase_exit_fresh i s (inv_wf s Hinv) Ht Hser)
    as (s1 & Hs1 & Hfresh).
  assert (Inv s1) as Hinv1.
  { destruct (serialPhase_Inv i s Hinv) as (? & ? & ?). congruence. }
  destruct Hfresh as (_ & _ & Hd1 & [Hover1 Ht1] & _ & Hrow1 & _).
  unfold loop. rewrite Hs1, bind_Some_eq, Ht1, Hover1.
  destruct (motionPhase_Inv i s1 Hinv1) as (s2 & Hs2 & Hinv2 & Hover2).
  rewrite Hs2, bind_Some_eq.
  destruct (motionPhase_same_game i s1 s2 Hs2)
    as (_ & Hrow2 & _ & _ & Hd2 & Ht2).
  unfold buttonPhase. rewrite Hp.
  assert (gameOver s2 = false) as Hrun2 by congruence.
  destruct (dropBlock_Inv (rndMain i) s2 Hinv2 Hrun2) as (s3 & Hs3 & Hinv3).
  rewrite Hs3, bind_Some_eq.
  destruct (updateDisplay_spec s3) as [m ->]; [left; apply Hinv3|].
  destruct (first_drop_effect (rndMain i) s2 s3 Hinv2 Hrun2) as
    (Hcells & Hh & Hr & Hover3 & _ & Hdelay & Ht3); [congruence|done|].
  eexists. split; [done|]. split; [split; simpl; congruence|].
  split; [done|]. split; [done|]. split.
  - simpl. rewrite Hdelay, Hd2, Hd1. done.
  - exists (blockPos s2). split; [apply Hinv2|]. apply Hcells.
Qed.

Lemma leaving_test_mode_with_press_drops_witness :
  reachable over_in_test_state ∧ testMode over_in_test_state = true
  ∧ ∃ s', loop (mkInput (Some "t"%char) true true 0 0 2 0) over_in_test_state
            = Some s'
      ∧ blockRow s' = 1 ∧ stackHeight s' = 1.
Proof.
  assert (reachable over_in_test_state) as Hreach.
  { exists 0%N, [press 4; press 0; mkInput (Some "t"%char) false false 0 0 0 0].
    by vm_compute. }
  split; [done|]. split; [done|].
  destruct (leaving_test_mode_with_press_drops
              (mkInput (Some "t"%char) true true 0 0 2 0) over_in_test_state
              Hreach eq_refl eq_refl eq_refl)
    as (s' & Hloop & _ & Hrow & Hh & _).
  exists s'. split; [exact Hloop|]. split; [exact Hrow|exact Hh].
Defined.

(** ** Nothing goes backwards within a game *)

Lemma no_step_back_fields s s' :
  stack s' = stack s → stackHeight s' = stackHeight s →
  blockRow s' = blockRow s → moveDelay s' = moveDelay s →
  gameOver s' = gameOver s → no_step_back s s'.
Proof.
  intros Hst Hh Hr Hd Ho. unfold no_step_back.
  rewrite Hst, Hh, Hr, Hd, Ho. repeat split; try done; lia.
Qed.

Lemma no_step_back_trans s1 s2 s3 :
  no_step_back s1 s2 → no_step_back s2 s3 → no_step_back s1 s3.
Proof.
  intros (Hc1 & ? & ? & ? & Ho1) (Hc2 & ? & ? & ? & Ho2).
  repeat split; [auto|lia..|auto].
Qed.

Lemma no_step_back_same_game s s' : same_game s s' → no_step_back s s'.
Proof.
  intros ([? ?] & ? & _ & ? & ? & _). by apply no_step_back_fields.
Qed.

Lemma no_step_back_drop rnd s s' :
  Inv s → gameOver s = false → dropBlock rnd s = Some s' → no_step_back s s'.
Proof.
  intros Hinv Hrun Hdrop.
  destruct (dropBlock_stack rnd s s' Hinv Hdrop) as [_ Hget].
  destruct (inv_active s Hinv Hrun) as [_ Heq].
  pose proof (inv_delay s Hinv). pose proof (inv_height s Hinv).
  split; [|split; [|split; [|split]]].
  - intros r c Hocc. unfold occupied in *. rewrite Hget. by case_decide.
  - destruct (dropBlock_fields rnd s s' Hinv Hrun Hdrop)
      as (_ & _ & _ & _ & [(_ & _ & _ & _ & _ & [[_ ->]|(_ & -> & _)])|Hadv]);
      [lia|lia|]. destruct Hadv as (_ & _ & _ & -> & _). lia.
  - destruct (dropBlock_fields rnd s s' Hinv Hrun Hdrop)
      as (_ & _ & _ & _ & [(_ & _ & -> & _)|(_ & _ & -> & _)]); lia.
  - destruct (dropBlock_fields rnd s s' Hinv Hrun Hdrop)
      as (_ & _ & _ & _ & [(_ & _ & _ & -> & _)|(_ & _ & _ & _ & -> & _)]);
      consts; lia.
  - congruence.
Qed.

Lemma serialPhase_no_reset i s s1 :
  serialPhase i s = Some s1 →
  ¬ (testMode s = true ∧ serialIn i = Some "t"%char) →
  stack s1 = stack s ∧ stackHeight s1 = stackHeight s
  ∧ blockRow s1 = blockRow s ∧ moveDelay s1 = moveDelay s
  ∧ gameOver s1 = gameOver s.
Proof.
  intros Hs1 Hnr.
  assert (serialIn i = Some "t"%char ∨ serialIn i ≠ Some "t"%char)
    as [Hser|Hser].
  { destruct (serialIn i) as [c|]; [|by right].
    destruct (Ascii.eqb_spec c "t"); [left; by subst|right; congruence]. }
  - destruct (testMode s) eqn:Ht; [by destruct Hnr|].
    rewrite (serialPhase_enter i s Ht Hser) in Hs1.
    by apply updateDisplay_inv in Hs1 as [m ->].
  - destruct (serialPhase_quiet i s s1 Hs1 Hser)
      as ([? ?] & ? & _ & ? & ? & _). done.
Qed.

(** X14: a pass of [loop()] that does not reset the game (it does not
    leave test mode and does not confirm a press while the game is over)
    never goes backwards: every occupied cell stays occupied, stackHeight
    and blockRow do not decrease, moveDelay does not increase, and a game
    that was over is still over. *)
Theorem pass_without_reset_keeps_progress i s s' :
  Inv s → no_reset i s → loop i s = Some s' → no_step_back s s'.
Proof.
  intros Hinv [Hexit Hrestart] Hloop. unfold loop in Hloop.
  apply bind_Some in Hloop as (s1 & Hs1 & Hrest).
  assert (Inv s1) as Hinv1.
  { destruct (serialPhase_Inv i s Hinv) as (? & ? & ?). congruence. }
  destruct (serialPhase_no_reset i s s1 Hs1 Hexit) as (Hst & Hh & Hr & Hd & Ho).
  apply (no_step_back_trans s s1 s'); [by apply no_step_back_fields|].
  destruct (testMode s1).
  { unfold testPhase in Hrest. destruct (pressed i).
    - apply updateDisplay_inv in Hrest as [m ->].
      by apply no_step_back_fields.
    - injection Hrest as <-. by apply no_step_back_fields. }
  destruct (gameOver s1) eqn:Hover1.
  { unfold gameOverPhase in Hrest.
    apply bind_Some in Hrest as (s2 & [m ->]%updateDisplay_inv & Hrest).
    destruct (pressed i) eqn:Hp.
    - destruct Hrestart. split; [congruence|done].
    - injection Hrest as <-. by apply no_step_back_fields. }
  apply bind_Some in Hrest as (s2 & Hs2 & Hrest).
  apply (no_step_back_trans s1 s2 s');
    [by apply no_step_back_same_game, (motionPhase_same_game i)|].
  destruct (motionPhase_Inv i s1 Hinv1) as (s2' & Hs2' & Hinv2 & Hover2).
  assert (s2' = s2) as -> by congruence.
  unfold buttonPhase in Hrest. destruct (pressed i).
  - apply bind_Some in Hrest as (s3 & Hs3 & [m ->]%updateDisplay_inv).
    apply (no_step_back_trans s2 s3); [|by apply no_step_back_fields].
    apply (no_step_back_drop (rndMain i)); [done|congruence|done].
  - injection Hrest as <-. by apply no_step_back_fields.
Qed.

Lemma pass_without_reset_keeps_progress_witness :
  Inv one_row_state ∧ no_reset (press 4) one_row_state
  ∧ ∃ s', loop (press 4) one_row_state = Some s'
      ∧ occupied (stack s') 0 5 ∧ stackHeight one_row_state ≤ stackHeight s'.
Proof.
  assert (Inv one_row_state) as Hinv
    by apply reachable_Inv, one_row_state_reachable.
  assert (no_reset (press 4) one_row_state) as Hnr.
  { split; intros [? ?]; discriminate. }
  split; [done|]. split; [done|].
  destruct (loop_Inv (press 4) one_row_state Hinv) as (s' & Hloop & _).
  exists s'. split; [exact Hloop|].
  destruct (pass_without_reset_keeps_progress (press 4) one_row_state s'
              Hinv Hnr Hloop) as (Hcells & Hh & _).
  clear Hloop. split; [|exact Hh]. apply Hcells. by vm_compute.
Defined.

(** ** Timing of the sweep *)

Lemma to_ulong_elapsed last d :
  0 ≤ d < 2 ^ 32 → to_ulong (to_ulong (last + d) - last) = d.
Proof.
  intros Hd. unfold to_ulong. rewrite Zminus_mod_idemp_l.
  replace (last + d - last) with d by lia. by apply Z.mod_small.
Qed.

(** X15: while the game is being played the block is moved exactly when
    at least moveDelay milliseconds have elapsed since the last move, also
    when the 32-bit millisecond clock has wrapped around in between: with
    d the time elapsed (below 2^32) and the clock reading
    (lastMove + d) mod 2^32, the motion step is skipped for d < moveDelay
    (and the whole pass of [loop()] changes nothing if, besides, no byte
    and no press arrive), and is [moveBlock], with lastMove set to the
    clock, for d >= moveDelay. *)
Theorem sweep_waits_for_moveDelay i s d :
  Inv s → gameOver s = false → 0 ≤ d < 2 ^ 32 →
  clockTest i = to_ulong (lastMove s + d) →
  (d < moveDelay s → motionPhase i s = Some s)
  ∧ (d < moveDelay s → testMode s = false → serialIn i = None →
     pressed i = false → loop i s = Some s)
  ∧ (moveDelay s ≤ d →
     ∃ m, motionPhase i s =
          Some (set_matrix m
                  (set_lastMove (to_ulong (clockStore i)) (moveBlock s)))).
Proof.
  intros Hinv Hrun Hd Hclock.
  cut ((d < moveDelay s → motionPhase i s = Some s)
       ∧ (moveDelay s ≤ d →
          ∃ m, motionPhase i s =
               Some (set_matrix m
                       (set_lastMove (to_ulong (clockStore i)) (moveBlock s))))).
  { intros [Hwait Hmove]. split; [done|]. split; [|done].
    intros Hlt Ht Hser Hp. unfold loop, serialPhase. rewrite Hser.
    rewrite bind_Some_eq, Ht, Hrun, (Hwait Hlt), bind_Some_eq.
    unfold buttonPhase. by rewrite Hp. }
  destruct (inv_active s Hinv Hrun) as [Hmov _].
  pose proof (inv_delay s Hinv) as Hdelay.
  assert (to_ulong (moveDelay s) = moveDelay s) as Hsmall.
  { unfold to_ulong. apply Z.mod_small. consts. lia. }
  split; intros Hcmp.
  - unfold motionPhase.
    rewrite Hmov, Hclock, (to_ulong_elapsed _ _ Hd), Hsmall.
    destruct (Z.geb_spec d (moveDelay s)); [lia|done].
  - unfold motionPhase.
    rewrite Hmov, Hclock, (to_ulong_elapsed _ _ Hd), Hsmall.
    destruct (Z.geb_spec d (moveDelay s)); [|lia]. cbn [andb].
    apply updateDisplay_spec. left.
    change (grid_wf (stack (moveBlock s))).
    destruct (moveBlock_frame s) as [-> _]. apply Hinv.
Qed.

Lemma sweep_waits_for_moveDelay_witness :
  Inv (set_lastMove 4294967290 one_row_state)
  ∧ clockTest (mkInput None false false 194 194 0 0)
    = to_ulong (lastMove (set_lastMove 4294967290 one_row_state) + 200)
  ∧ ∃ m, motionPhase (mkInput None false false 194 194 0 0)
           (set_lastMove 4294967290 one_row_state)
         = Some (set_matrix m
                   (set_lastMove 194
                      (moveBlock (set_lastMove 4294967290 one_row_state)))).
Proof.
  assert (Inv (set_lastMove 4294967290 one_row_state)) as Hinv.
  { by destruct (reachable_Inv _ one_row_state_reachable). }
  split; [done|]. split; [by vm_compute|].
  destruct (sweep_waits_for_moveDelay (mkInput None false false 194 194 0 0)
              (set_lastMove 4294967290 one_row_state) 200 Hinv)
    as (_ & _ & Hmove); [done|lia|by vm_compute|].
  apply Hmove. by vm_compute.
Defined.

(** ** How a game ends, and the shape of the tower *)

(** X16: in every reachable state in which the game is over, the globals
    tell why: either the last drop missed, and then blockRow equals
    stackHeight, is above row 0 and below HEIGHT; or the stack reached the
    top, and then stackHeight is HEIGHT and the block is left on row
    HEIGHT - 1. *)
Theorem game_over_has_a_reason s :
  reachable s → gameOver s = true →
  (blockRow s = stackHeight s ∧ 0 < blockRow s < HEIGHT)
  ∨ (stackHeight s = HEIGHT ∧ blockRow s = HEIGHT - 1).
Proof.
  apply (reachable_invariant (λ s, gameOver s = true →
    (blockRow s = stackHeight s ∧ 0 < blockRow s < HEIGHT)
    ∨ (stackHeight s = HEIGHT ∧ blockRow s = HEIGHT - 1))); try done.
  - intros t c _ Hrun _ _. cbn beta. simpl.
    destruct (moveBlock_frame t) as (_ & _ & _ & -> & _). congruence.
  - intros rnd t t' Hinv Hrun _ _ Hdrop Hover.
    destruct (inv_active t Hinv Hrun) as [_ Heq]. pose proof (inv_row t Hinv).
    destruct (dropBlock_fields rnd t t' Hinv Hrun Hdrop)
      as (_ & _ & _ & _ & [(_ & _ & -> & _ & _ & Hcase)|(Hrun' & _)]);
      [|congruence].
    destruct Hcase as [[Hs ->]|(_ & -> & ->)]; [left|by right].
    split; [done|]. assert (blockRow t ≠ 0); [|lia].
    intros H0. apply Hs. by left.
Qed.

Lemma game_over_has_a_reason_witness :
  ∃ s, reachable s ∧ gameOver s = true
    ∧ blockRow s = stackHeight s ∧ 0 < blockRow s < HEIGHT.
Proof.
  pose (s := state_after 0 [press 4; press 0]).
  assert (reachable s) as Hreach
    by (exists 0%N, [press 4; press 0]; by vm_compute).
  assert (gameOver s = true) as Hover by (by vm_compute).
  exists s. split; [done|]. split; [done|].
  destruct (game_over_has_a_reason s Hreach Hover) as [Hmiss|[Htop _]];
    [exact Hmiss|]. by vm_compute in Htop.
Defined.

Lemma reachable_base s :
  reachable s → 0 < stackHeight s →
  ∃ p, 0 ≤ p ≤ WIDTH - BLOCK_WIDTH
    ∧ ∀ c, occupied (stack s) 0 c ↔ p ≤ c < p + BLOCK_WIDTH.
Proof.
  apply (reachable_invariant (λ s, 0 < stackHeight s →
    ∃ p, 0 ≤ p ≤ WIDTH - BLOCK_WIDTH
      ∧ ∀ c, occupied (stack s) 0 c ↔ p ≤ c < p + BLOCK_WIDTH)); try done.
  - intros t c _ _ _ Ht. cbn beta. simpl.
    destruct (moveBlock_frame t) as (-> & -> & _). done.
  - intros rnd t t' Hinv Hrun _ Ht Hdrop _.
    destruct (inv_active t Hinv Hrun) as [_ Heq]. pose proof (inv_row t Hinv).
    destruct (decide (blockRow t = 0)) as [H0|H0].
    + destruct (first_drop_effect rnd t t' Hinv Hrun H0 Hdrop) as [Hcells _].
      exists (blockPos t). split; [apply Hinv|]. intros c. rewrite Hcells.
      unfold in_span. tauto.
    + destruct Ht as (p & Hp & Hbase); [lia|]. exists p. split; [done|].
      intros c. rewrite <- Hbase.
      destruct (dropBlock_stack rnd t t' Hinv Hdrop) as [_ Hget].
      unfold occupied. rewrite Hget. rewrite decide_False; [done|].
      intros [? _]. lia.
Qed.

(** X17: in every reachable state with a stack, row 0 holds exactly
    BLOCK_WIDTH consecutive occupied cells, and every occupied cell of the
    array lies in one of these BLOCK_WIDTH columns: the tower never leaves
    the columns of its base. *)
Theorem tower_stays_over_its_base s :
  reachable s → 0 < stackHeight s →
  ∃ p, 0 ≤ p ≤ WIDTH - BLOCK_WIDTH
    ∧ (∀ c, occupied (stack s) 0 c ↔ p ≤ c < p + BLOCK_WIDTH)
    ∧ ∀ r c, occupied (stack s) r c → p ≤ c < p + BLOCK_WIDTH.
Proof.
  intros Hreach Hh. destruct (reachable_base s Hreach Hh) as (p & Hp & Hbase).
  exists p. split; [done|]. split; [done|]. intros r c Hocc.
  apply Hbase.
  pose proof (grid_get_inside _ _ _ _ Hocc) as [Hr _].
  replace 0 with (r - Z.of_nat (Z.to_nat r)) by lia.
  apply supported_down_to; [by apply reachable_tower_supported|done|lia].
Qed.

Lemma tower_stays_over_its_base_witness :
  reachable two_row_state ∧ 0 < stackHeight two_row_state
  ∧ ∃ p, (∀ c, occupied (stack two_row_state) 0 c ↔ p ≤ c < p + BLOCK_WIDTH)
       ∧ p ≤ 3 < p + BLOCK_WIDTH.
Proof.
  assert (reachable two_row_state) as Hreach.
  { exists 2%N, [press 0; press 4]. by vm_compute. }
  assert (0 < stackHeight two_row_state) as Hh by (by vm_compute).
  split; [done|]. split; [done|].
  destruct (tower_stays_over_its_base two_row_state Hreach Hh)
    as (p & _ & Hbase & Hall).
  exists p. split; [exact Hbase|]. apply (Hall 1 3). by vm_compute.
Defined.
